(** * Competitive mirror descent: the optimizer core of [multi_cmd/cmd_utils.py]

    A shallow embedding of the numerical engine of the CMD optimizer
    ([flatten_filter_none], [avp], [atvp], [metamatrix_conjugate_gradient],
    [exp_map], [zero_grad] and the classes [CMD] and [CMD_RL]) together with
    the potentials of [multi_cmd/optim/potentials.py].

    Modelling conventions.
    - Tensor entries are the values of a [Scalar] structure: a carrier with
      the arithmetic operations and the comparison the code uses, and no
      laws.  The general statements hold for every such structure, hence
      for the rounded arithmetic of torch; no proof uses a property of
      addition or multiplication.  The concrete runs are computed in
      [binary32], IEEE 754 single precision (torch's default float32) built
      on the standard library's [SpecFloat], every operation rounded once.
    - A one-dimensional tensor is a [list scalar]; a parameter tensor carries
      its shape and its entries in row-major order.
    - Python exceptions are the [Err] results of the [res] monad.
    - [torch.autograd] is not part of the repository: it is an interface
      ([Autograd]) with a polynomial instance used for concrete games. *)

From Stdlib Require Import List ZArith Lia Bool Arith.
From Stdlib Require Import Floats.SpecFloat.
Import ListNotations.

Set Implicit Arguments.

(** ** Exceptions and the result monad *)

(** The ways a torch call of this module fails.  All are [RuntimeError]s;
    for [torch.cat] of an empty list that is the class torch 1.x raises
    (later releases raise a [ValueError] there). *)
Inductive torch_failure : Type :=
| EmptyCat        (* torch.cat of an empty list of tensors *)
| InvalidShape    (* reshape to a shape of another element count *)
| Broadcast       (* operands of an elementwise operation do not broadcast *)
| DotSize         (* torch.dot of vectors of different sizes *)
| ListLength      (* a torch._foreach_ call on lists of different lengths *)
| EmptyList       (* a torch._foreach_ call on an empty list of tensors *)
| GradOutputs     (* grad_outputs of another size than the outputs *)
| NoGraph.        (* autograd.grad of outputs that do not require grad *)

Inductive py_error : Type :=
| IndexError
| UnboundLocalError
| TypeError
| RuntimeError (why : torch_failure).

Inductive res (A : Type) : Type :=
| Ok (a : A)
| Err (e : py_error).

Arguments Ok {A} a.
Arguments Err {A} e.

Definition bind {A B : Type} (c : res A) (k : A -> res B) : res B :=
  match c with
  | Ok a => k a
  | Err e => Err e
  end.

Declare Scope res_scope.
Delimit Scope res_scope with res.
Notation "x <- c ;; k" := (bind c (fun x => k))
  (at level 61, c at next level, right associativity) : res_scope.
Notation "' pat <- c ;; k" := (bind c (fun x => match x with pat => k end))
  (at level 61, pat pattern, c at next level, right associativity) : res_scope.

Open Scope res_scope.

(** [for x in xs: acc = f(acc, x)] with exceptions. *)
Fixpoint foldM {A S : Type} (f : S -> A -> res S) (xs : list A) (s : S) : res S :=
  match xs with
  | [] => Ok s
  | x :: xs' => s' <- f s x ;; foldM f xs' s'
  end.

(** A list comprehension whose element expression may raise. *)
Fixpoint mapM {A B : Type} (f : A -> res B) (xs : list A) : res (list B) :=
  match xs with
  | [] => Ok []
  | x :: xs' => y <- f x ;; ys <- mapM f xs' ;; Ok (y :: ys)
  end.

(** [xs[i]] on a Python list. *)
Definition py_index {A : Type} (xs : list A) (i : nat) : res A :=
  match nth_error xs i with
  | Some x => Ok x
  | None => Err IndexError
  end.

(** [enumerate(xs)]. *)
Definition enumerate {A : Type} (xs : list A) : list (nat * A) :=
  combine (seq 0 (length xs)) xs.

Fixpoint map2 {A B C : Type} (f : A -> B -> C) (xs : list A) (ys : list B) : list C :=
  match xs, ys with
  | x :: xs', y :: ys' => f x y :: map2 f xs' ys'
  | _, _ => []
  end.

(** [torch.cat(parts)] on one-dimensional tensors. *)
Definition torch_cat {A : Type} (parts : list (list A)) : res (list A) :=
  match parts with
  | [] => Err (RuntimeError EmptyCat)
  | _ => Ok (concat parts)
  end.

(** [v[lo:hi]]: Python slicing clamps both ends. *)
Definition slice {A : Type} (v : list A) (lo hi : nat) : list A :=
  firstn (hi - lo) (skipn lo v).

(** [xs[i] = x]. *)
Fixpoint list_set {A : Type} (xs : list A) (i : nat) (x : A) : list A :=
  match xs, i with
  | [], _ => []
  | _ :: xs', O => x :: xs'
  | y :: xs', S i' => y :: list_set xs' i' x
  end.

Definition shape_numel (s : list nat) : nat := fold_right Nat.mul 1%nat s.

(** A tensor value: a shape and the entries in row-major order. *)
Record tensor (A : Type) : Type := mkTensor {
  tshape : list nat;
  tdata : list A
}.

(** [t.reshape(s)] of a one-dimensional tensor. *)
Definition reshape {A : Type} (v : list A) (s : list nat) : res (tensor A) :=
  if length v =? shape_numel s then Ok (mkTensor s v)
  else Err (RuntimeError InvalidShape).

(** ** Scalars

    What the code does with the entries of its tensors: the constants [0]
    and [1], the four operations, the unary minus and the comparison [<].
    Nothing is assumed of them. *)
Class Scalar : Type := mkScalar {
  scalar : Type;
  zero : scalar;
  one : scalar;
  add : scalar -> scalar -> scalar;
  sub : scalar -> scalar -> scalar;
  mul : scalar -> scalar -> scalar;
  div : scalar -> scalar -> scalar;
  opp : scalar -> scalar;
  ltb : scalar -> scalar -> bool
}.

Declare Scope scalar_scope.
Delimit Scope scalar_scope with sc.
Bind Scope scalar_scope with scalar.
Notation "0" := zero : scalar_scope.
Notation "1" := one : scalar_scope.
Notation "x + y" := (add x y) : scalar_scope.
Notation "x - y" := (sub x y) : scalar_scope.
Notation "x * y" := (mul x y) : scalar_scope.
Notation "x / y" := (div x y) : scalar_scope.
Notation "- x" := (opp x) : scalar_scope.

Open Scope scalar_scope.

(** IEEE 754 single precision: 24 bits of precision, exponents below 128,
    every operation rounded to nearest, ties to even.  [x / 0] is an
    infinity or a NaN, and a comparison with a NaN is false. *)
Definition binary32 : Scalar :=
  {| scalar := spec_float;
     zero := S754_zero false;
     one := binary_normalize 24 128 1 0 false;
     add := SFadd 24 128;
     sub := SFsub 24 128;
     mul := SFmul 24 128;
     div := SFdiv 24 128;
     opp := SFopp;
     ltb := SFltb |}.

(** The float32 value of an integer, and of [n / d]. *)
Definition f32 (z : Z) : @scalar binary32 := binary_normalize 24 128 z 0 false.
Definition f32_ratio (n d : Z) : @scalar binary32 :=
  SFdiv 24 128 (f32 n) (f32 d).

(** ** One-dimensional tensors *)

Abbreviation vec := (list scalar) (only parsing).

Section Tensors.

Context {Sc : Scalar}.

(** [torch.zeros(n)]. *)
Definition zeros (n : nat) : vec := repeat 0 n.

(** [torch.zeros_like(v)]. *)
Definition zeros_like (v : vec) : vec := zeros (length v).

(** [v * alpha] and [v / alpha] for a Python number [alpha]. *)
Definition vscale (v : vec) (alpha : scalar) : vec := map (fun x => x * alpha) v.
Definition vdiv (v : vec) (alpha : scalar) : vec := map (fun x => x / alpha) v.

(** An elementwise binary operation [a op b] on one-dimensional tensors:
    equal sizes, or one operand of size one that is broadcast. *)
Definition broadcast2 (f : scalar -> scalar -> scalar) (a b : vec) : res vec :=
  if length a =? length b then Ok (map2 f a b)
  else match a, b with
       | [x], _ => Ok (map (f x) b)
       | _, [y] => Ok (map (fun x => f x y) a)
       | _, _ => Err (RuntimeError Broadcast)
       end.

(** The in-place form [a op= b]: the result keeps the size of [a], so only
    [b] may be broadcast. *)
Definition broadcast2_ (f : scalar -> scalar -> scalar) (a b : vec) : res vec :=
  if length a =? length b then Ok (map2 f a b)
  else match b with
       | [y] => Ok (map (fun x => f x y) a)
       | _ => Err (RuntimeError Broadcast)
       end.

Definition vadd : vec -> vec -> res vec := broadcast2 add.
Definition vadd_ : vec -> vec -> res vec := broadcast2_ add.

(** [a.add_(b, alpha=c)] and [a.sub_(b, alpha=c)]. *)
Definition vaxpy_ (c : scalar) : vec -> vec -> res vec :=
  broadcast2_ (fun x y => x + c * y).
Definition vaxmy_ (c : scalar) : vec -> vec -> res vec :=
  broadcast2_ (fun x y => x - c * y).

(** [torch.dot(a, b)].  torch leaves the order in which the products are
    added to its backend; here they are added from the last to the
    first. *)
Definition dot (a b : vec) : res scalar :=
  if length a =? length b
  then Ok (fold_right add 0 (map2 mul a b))
  else Err (RuntimeError DotSize).

(** [sum(torch.dot(e1, e2) for e1, e2 in zip(us, vs))]: Python's [sum]
    starts from [0]. *)
Definition sum_dots (us vs : list vec) : res scalar :=
  foldM (fun acc uv => d <- dot (fst uv) (snd uv) ;; Ok (acc + d))
        (combine us vs) 0.

(** A [torch._foreach_] binary operation: the lists are not empty and have
    one length, and the tensors are combined pairwise. *)
Definition foreach2 (op : vec -> vec -> res vec) (us vs : list vec)
  : res (list vec) :=
  match us with
  | [] => Err (RuntimeError EmptyList)
  | _ :: _ =>
      if length us =? length vs
      then mapM (fun uv => op (fst uv) (snd uv)) (combine us vs)
      else Err (RuntimeError ListLength)
  end.

(** [torch._foreach_add_(us, vs, alpha=c)], [torch._foreach_sub_(us, vs,
    alpha=c)] ([alpha] is [1] when it is not given) and the out-of-place
    [torch._foreach_add(us, vs, alpha=c)]. *)
Definition foreach_add_ (c : scalar) : list vec -> list vec -> res (list vec) :=
  foreach2 (vaxpy_ c).
Definition foreach_sub_ (c : scalar) : list vec -> list vec -> res (list vec) :=
  foreach2 (vaxmy_ c).
Definition foreach_add (c : scalar) : list vec -> list vec -> res (list vec) :=
  foreach2 (broadcast2 (fun x y => x + c * y)).

(** ** Parameter tensors *)

(** A parameter tensor: a leaf of the differentiation graph, identified by
    [pid], with a fixed shape and mutable entries. *)
Record param : Type := mkParam {
  pid : nat;
  pshape : list nat;
  pdata : vec
}.

(** [p.numel()]. *)
Definition numel (p : param) : nat := shape_numel (pshape p).

(** A parameter read as a tensor value (as [CMD.step] passes the player as
    its own gradient list). *)
Definition as_tensor (p : param) : tensor scalar := mkTensor (pshape p) (pdata p).

(** The storage of a parameter holds exactly the entries its shape
    counts. *)
Definition param_wf (p : param) : Prop := length (pdata p) = numel p.

Definition total_numel (pl : list param) : nat :=
  fold_right (fun p n => (numel p + n)%nat) 0%nat pl.

End Tensors.

(** A player is the ordered list of its parameter tensors. *)
Abbreviation player := (list param) (only parsing).

(** ** Bregman potentials ([multi_cmd/optim/potentials.py]) *)

Module Potentials.

Section WithScalar.

Context {Sc : Scalar}.

(** The dictionary [{'Dx': .., 'Dx_inv': .., 'Dxx_vp': ..}]. *)
Record bregman : Type := mkBregman {
  Dx : vec -> res vec;
  Dx_inv : vec -> res vec;
  Dxx_vp : vec -> vec -> res vec
}.

Definition squared_distance (alpha : scalar) : bregman :=
  {| Dx := fun x_dual => Ok (vdiv x_dual alpha);
     Dx_inv := fun x_dual => Ok (vscale x_dual alpha);
     Dxx_vp := fun x_primal v => Ok (vscale v alpha) |}.

(** [torch.exp] and [torch.log] are not among the operations of a
    [Scalar]: they are taken as parameters. *)
Definition shannon_entropy (exp log : scalar -> scalar) (alpha : scalar)
  : bregman :=
  {| Dx := fun x_dual => Ok (map exp (vdiv x_dual alpha));
     Dx_inv := fun x_primal => Ok (map (fun x => alpha * log x) x_primal);
     Dxx_vp := fun x_primal v =>
       q <- broadcast2 div v x_primal ;; Ok (vscale q alpha) |}.

End WithScalar.

End Potentials.

Import Potentials.

(** ** The differentiation engine

    [torch.autograd.grad] as the module calls it.  A [node] is one entry of
    a tensor that still carries its graph (a scalar loss is one node); a
    loss is a tensor computed from tensors that require grad.
    With [allow_unused=True] a parameter the outputs do not depend on gets
    [None].  The second pass raises when none of its outputs requires
    grad. *)
Section Engine.

Context {Sc : Scalar}.

Record Autograd : Type := mkAutograd {
  node : Type;
  (* an entry of torch.zeros(n, requires_grad=True) *)
  node_zero : node;
  node_neg : node -> node;
  (* autograd.grad(loss, params, create_graph=True, retain_graph=True,
                   allow_unused=True) *)
  grad_graph : node -> list param -> list (option (tensor node));
  (* autograd.grad(loss, params, retain_graph=True, allow_unused=True) *)
  grad_value : node -> list param -> list (option (tensor scalar));
  (* autograd.grad(outputs, params, grad_outputs=v, create_graph=False,
                   retain_graph=True, allow_unused=True) *)
  vjp : list node -> list param -> vec -> res (list (option (tensor scalar)))
}.

End Engine.

(** ** [flatten_filter_none] *)

Module CmdUtils.

Section WithScalar.

Context {Sc : Scalar}.

(** The list [filtered] the loop builds: the entries of each gradient, or
    [numel] zeros of the parameter where the gradient is [None]. *)
Definition filter_none {A : Type} (zero : A)
    (grad_list : list (option (tensor A))) (param_list : list param)
  : list (list A) :=
  map (fun gp : option (tensor A) * param =>
         match fst gp with
         | None => repeat zero (numel (snd gp))
         | Some grad => tdata grad
         end)
      (combine grad_list param_list).

(** The function is used both on plain values and on gradients that still
    carry their graph, so the entry type is a parameter; [zero] is the entry
    of [torch.zeros] and [negate] the unary minus. [detach] only cuts the
    result from the graph and leaves its entries as they are. *)
Definition flatten_filter_none {A : Type} (zero : A) (negate : A -> A)
    (grad_list : list (option (tensor A))) (param_list : list param)
    (detach neg : bool) : res (list A) :=
  let filtered := filter_none zero grad_list param_list in
  cat <- torch_cat filtered ;;
  Ok (if neg then map negate cat else cat).

(** The instance on plain values. *)
Definition flatten_values := @flatten_filter_none scalar 0 opp.

(** [flatten_filter_none(player, player, detach=True)] of [CMD.step]. *)
Definition flatten_player (pl : player) : res vec :=
  flatten_values (map (fun p => Some (as_tensor p)) pl) pl true false.

(** ** The write-back loop of [CMD.step]

    [for p in player: p.data = mapped[idx: idx + p.numel()].reshape(p.shape);
     idx += p.numel()].  The loop assigns tensor after tensor, so an exception
    leaves the tensors before the failing one already overwritten: the
    result is the player as the loop leaves it and the exception, if any. *)
Fixpoint write_back (pl : player) (mapped : vec) (idx : nat)
  : player * option py_error :=
  match pl with
  | [] => ([], None)
  | p :: rest =>
      match reshape (slice mapped idx (idx + numel p)) (pshape p) with
      | Err e => (p :: rest, Some e)
      | Ok t =>
          let out := write_back rest mapped (idx + numel p) in
          (mkParam (pid p) (pshape p) (tdata t) :: fst out, snd out)
      end
  end.

(** The loop over players of the write-back:
    [for player, mapped_flattened in zip(player_list, mapped_list)]; the
    first exception ends it. *)
Fixpoint write_back_all (players : list player) (mapped_list : list vec)
  : list player * option py_error :=
  match players, mapped_list with
  | pl :: players', mapped :: mapped_list' =>
      match write_back pl mapped 0 with
      | (pl', Some e) => (pl' :: players', Some e)
      | (pl', None) =>
          let out := write_back_all players' mapped_list' in
          (pl' :: fst out, snd out)
      end
  | _, _ => (players, None)
  end.

(** ** The meta-matrix operator *)

Section MetaMatrix.

Variable E : Autograd.

Let flatten_graph := @flatten_filter_none (node E) (node_zero E) (node_neg E).

(** [prod_list[i] += rhs]: the current block is read before [rhs] is
    evaluated, the sum is taken in place and stored back. *)
Definition iadd_at (prod_list : list vec) (i : nat) (rhs : res vec)
  : res (list vec) :=
  block <- py_index prod_list i ;;
  y <- rhs ;;
  block' <- vadd_ block y ;;
  Ok (list_set prod_list i block').

(** The two differentiation passes of an off-diagonal pair: the gradient
    of [loss] in [col_params] with its graph, then its vector-Jacobian
    product in [row_params] seeded by [vector_elem]. *)
Definition hvp (loss : node E) (col_params row_params : player)
    (vector_elem : vec) : res vec :=
  let grad_raw := grad_graph E loss col_params in
  grad_flattened <- flatten_graph grad_raw col_params false false ;;
  hvp_raw <- vjp E grad_flattened row_params vector_elem ;;
  flatten_values hvp_raw row_params false false.

(** The body of the inner loop of [avp] for the pair [(i, j)]. *)
Definition avp_cell (hessian_loss_list : list (node E))
    (player_list_flattened : list vec) (bregman : bregman) (transpose : bool)
    (i : nat) (row_params : player) (prod_list : list vec)
    (jcv : nat * (player * vec)) : res (list vec) :=
  let j := fst jcv in
  let col_params := fst (snd jcv) in
  let vector_elem := snd (snd jcv) in
  if i =? j then
    iadd_at prod_list i
      (x_i <- py_index player_list_flattened i ;;
       Dxx_vp bregman x_i vector_elem)
  else
    loss <- py_index hessian_loss_list (if transpose then j else i) ;;
    hvp_flattened <- hvp loss col_params row_params vector_elem ;;
    iadd_at prod_list i (Ok hvp_flattened).

Definition avp (hessian_loss_list : list (node E))
    (player_list : list player) (player_list_flattened : list vec)
    (vector_list_flattened : list vec) (bregman : bregman)
    (transpose : bool) : res (list vec) :=
  let prod_list := map zeros_like vector_list_flattened in
  foldM (fun prod_list irow =>
           foldM (avp_cell hessian_loss_list player_list_flattened bregman
                    transpose (fst irow) (snd irow))
                 (enumerate (combine player_list vector_list_flattened))
                 prod_list)
        (enumerate player_list) prod_list.

(** The body of the inner loop of [atvp] for the pair [(i, j)]. *)
Definition atvp_cell (col_grads_flattened : list (list (node E)))
    (player_list_flattened : list vec) (bregman : bregman)
    (i : nat) (row_params : player) (prod_list : list vec)
    (jv : nat * vec) : res (list vec) :=
  let j := fst jv in
  let vector_elem := snd jv in
  if i =? j then
    iadd_at prod_list i
      (x_i <- py_index player_list_flattened i ;;
       Dxx_vp bregman x_i vector_elem)
  else
    grad_flattened <- py_index col_grads_flattened j ;;
    hvp_raw <- vjp E grad_flattened row_params vector_elem ;;
    hvp_flattened <- flatten_values hvp_raw row_params false false ;;
    iadd_at prod_list i (Ok hvp_flattened).

Definition atvp (hessian_loss_list : list (node E))
    (player_list : list player) (player_list_flattened : list vec)
    (vector_list_flattened : list vec) (bregman : bregman)
  : res (list vec) :=
  let prod_list := map zeros_like vector_list_flattened in
  col_grads_flattened <-
    mapM (fun jcol =>
            loss <- py_index hessian_loss_list (fst jcol) ;;
            flatten_graph (grad_graph E loss (snd jcol)) (snd jcol)
              false false)
         (enumerate player_list) ;;
  foldM (fun prod_list irow =>
           foldM (atvp_cell col_grads_flattened player_list_flattened
                    bregman (fst irow) (snd irow))
                 (enumerate vector_list_flattened)
                 prod_list)
        (enumerate player_list) prod_list.

End MetaMatrix.

(** ** The conjugate-gradient solver on the normal equations *)

(** The variables the loop of [metamatrix_conjugate_gradient] updates. *)
Record cg_state : Type := mkCg {
  cg_x : list vec;      (* vector_list_flattened *)
  cg_r : list vec;      (* r *)
  cg_p : list vec;      (* p *)
  cg_rdotr : scalar     (* rdotr *)
}.

(** What the code before the loop hands over: the starting point, the
    initial residual, the relative threshold and the squared residual. *)
Record cg_setup_out : Type := mkSetup {
  su_x : list vec;
  su_r : list vec;
  su_residual_tol : scalar;
  su_rdotr : scalar
}.

(** [torch.div(rdotr, ..)] of line 246.  [rdotr] is the [sum] of one
    [torch.dot] per block of [r]; over no block Python's [sum] is the
    integer [0], which [torch.div] does not accept as its input. *)
Definition torch_div (r : list vec) (rdotr pAp : scalar) : res scalar :=
  match r with
  | [] => Err TypeError
  | _ :: _ => Ok (rdotr / pAp)
  end.

Section ConjugateGradient.

Variable E : Autograd.
Variable grad_loss_list : list (node E).
Variable hessian_loss_list : list (node E).
Variable player_list : list player.
Variable player_list_flattened : list vec.
Variable bregman : bregman.
Variables tol atol : scalar.

(** [b]: the negated, detached gradient of each player's own loss. *)
Definition neg_gradients : res (list vec) :=
  mapM (fun lp =>
          flatten_values (grad_value E (fst lp) (snd lp)) (snd lp) true true)
       (combine grad_loss_list player_list).

(** [avp(.., transpose=True)] after [avp(.., transpose=False)]: the normal
    equations' operator applied to [v]. *)
Definition At_A (v : list vec) : res (list vec) :=
  A_v <- avp E hessian_loss_list player_list player_list_flattened v
           bregman false ;;
  avp E hessian_loss_list player_list player_list_flattened A_v
    bregman true.

(** Lines 188-228: right-hand side, thresholds and initial residual. *)
Definition cg_setup (vector_list_flattened : option (list vec))
  : res cg_setup_out :=
  b <- neg_gradients ;;
  r <- avp E hessian_loss_list player_list player_list_flattened b
         bregman true ;;
  norm_At_b <- sum_dots r r ;;
  let residual_tol := tol * norm_At_b in
  xr <- match vector_list_flattened with
        | None => Ok (map zeros_like player_list_flattened, r)
        | Some x0 =>
            At_A_x <- At_A x0 ;;
            r' <- foreach_sub_ 1 r At_A_x ;;
            Ok (x0, r')
        end ;;
  rdotr <- sum_dots (snd xr) (snd xr) ;;
  Ok (mkSetup (fst xr) (snd xr) residual_tol rdotr).

(** The test of the early exit, [rdotr < residual_tol or rdotr < atol]. *)
Definition early_exit (su : cg_setup_out) : bool :=
  ltb (su_rdotr su) (su_residual_tol su) || ltb (su_rdotr su) atol.

(** One pass through the loop body; the flag is [true] when the pass ends
    in [break]. *)
Definition cg_iteration (residual_tol : scalar) (st : cg_state)
  : res (cg_state * bool) :=
  At_A_p <- At_A (cg_p st) ;;
  pAp <- sum_dots (cg_p st) At_A_p ;;
  alpha <- torch_div (cg_r st) (cg_rdotr st) pAp ;;
  x' <- foreach_add_ alpha (cg_x st) (cg_p st) ;;
  r' <- foreach_sub_ alpha (cg_r st) At_A_p ;;
  new_rdotr <- sum_dots r' r' ;;
  if ltb new_rdotr atol || ltb new_rdotr residual_tol
  then Ok (mkCg x' r' (cg_p st) (cg_rdotr st), true)
  else
    let beta := new_rdotr / cg_rdotr st in
    p' <- foreach_add beta r' (cg_p st) ;;
    Ok (mkCg x' r' p' new_rdotr, false).

(** [for i in range(n_steps)] over the remaining values [steps] of [i];
    [last] is the value the loop variable holds so far, [None] while it is
    unbound. *)
Fixpoint cg_loop (residual_tol : scalar) (steps : list nat) (st : cg_state)
    (last : option nat) : res (cg_state * option nat) :=
  match steps with
  | [] => Ok (st, last)
  | i :: steps' =>
      out <- cg_iteration residual_tol st ;;
      if snd out then Ok (fst out, Some i)
      else cg_loop residual_tol steps' (fst out) (Some i)
  end.

(** The state the loop starts from: [p] is a detached copy of [r]. *)
Definition cg_start (su : cg_setup_out) : cg_state :=
  mkCg (su_x su) (su_r su) (su_r su) (su_rdotr su).

Definition metamatrix_conjugate_gradient
    (vector_list_flattened : option (list vec)) (n_steps : Z)
  : res (list vec * Z) :=
  su <- cg_setup vector_list_flattened ;;
  if early_exit su then Ok (su_x su, 0%Z)
  else
    out <- cg_loop (su_residual_tol su) (seq 0 (Z.to_nat n_steps))
             (cg_start su) None ;;
    match snd out with
    | None => Err UnboundLocalError
    | Some i => Ok (cg_x (fst out), (Z.of_nat i + 1)%Z)
    end.

End ConjugateGradient.

(** ** [exp_map] *)

(** [in_place] is accepted and never read; [torch.no_grad()] only keeps the
    results out of the graph. *)
Definition exp_map (player_list_flattened nash_list_flattened : list vec)
    (bregman : bregman) (in_place : bool) : res (list vec) :=
  mapM (fun pn =>
          a <- Dx_inv bregman (fst pn) ;;
          b <- Dxx_vp bregman (fst pn) (snd pn) ;;
          s <- vadd a b ;;
          Dx bregman s)
       (combine player_list_flattened nash_list_flattened).

(** ** [zero_grad]

    The function reads and writes nothing but the [.grad] attribute of its
    tensors, so it is modelled on the list of those attributes, in the
    order of the tensors: [None], or the accumulated gradient.
    [p.grad.detach()] returns a new tensor that is dropped;
    [p.grad.zero_()] overwrites the entries in place and keeps the shape. *)
Definition zero_grad (grads : list (option (tensor scalar)))
  : list (option (tensor scalar)) :=
  map (fun g => match g with
                | Some grad => Some (mkTensor (tshape grad)
                                       (zeros_like (tdata grad)))
                | None => None
                end) grads.

(** ** The optimizer classes [CMD] and [CMD_RL]

    The attribute [bregman] and the dictionary [state] of an optimizer;
    [cmd_grads] holds the [.grad] attributes of the tensors of
    [player_list], player by player.  [device] is stored and never read. *)
Record CMD : Type := mkCMD {
  cmd_bregman : bregman;
  cmd_step : Z;                                  (* state['step'] *)
  cmd_player_list : list player;                 (* state['player_list'] *)
  cmd_grads : list (list (option (tensor scalar)));
  cmd_tol : scalar;                              (* state['tol'] *)
  cmd_atol : scalar;                             (* state['atol'] *)
  cmd_last_dual_soln : option (list vec);        (* state['last_dual_soln'] *)
  cmd_last_dual_soln_n_iter : Z           (* state['last_dual_soln_n_iter'] *)
}.

(** [CMD.__init__] (and [CMD_RL.__init__], which only calls it). *)
Definition CMD_init (player_list : list player)
    (grads : list (list (option (tensor scalar)))) (bregman : bregman)
    (tol atol : scalar)
  : CMD :=
  mkCMD bregman 0 player_list grads tol atol None 0.

(** [CMD.zero_grad]. *)
Definition CMD_zero_grad (self : CMD) : CMD :=
  mkCMD (cmd_bregman self) (cmd_step self) (cmd_player_list self)
        (map zero_grad (cmd_grads self)) (cmd_tol self) (cmd_atol self)
        (cmd_last_dual_soln self) (cmd_last_dual_soln_n_iter self).

(** [CMD.player_list]. *)
Definition CMD_player_list (self : CMD) : list player := cmd_player_list self.

(** The body the two [step] methods share word for word, for a list of
    gradient objectives and a list of Hessian objectives.  The solver is
    called without [n_steps], that is with its default [5].  The result is
    the optimizer after the call, or the exception the call raises (what
    the state holds after an exception is not modelled, except inside the
    write-back, where [write_back_all] says it). *)
Definition step_body (E : Autograd) (self : CMD)
    (grad_loss_list hessian_loss_list : list (node E)) : res CMD :=
  let player_list := cmd_player_list self in
  player_list_flattened <- mapM flatten_player player_list ;;
  out <- metamatrix_conjugate_gradient E grad_loss_list hessian_loss_list
           player_list player_list_flattened (cmd_bregman self)
           (cmd_tol self) (cmd_atol self) (cmd_last_dual_soln self) 5 ;;
  let nash_list_flattened := fst out in
  let n_iter := snd out in
  mapped_list_flattened <-
    exp_map player_list_flattened nash_list_flattened (cmd_bregman self)
      true ;;
  match write_back_all player_list mapped_list_flattened with
  | (_, Some e) => Err e
  | (player_list', None) =>
      Ok (mkCMD (cmd_bregman self) (cmd_step self + 1) player_list'
                (cmd_grads self) (cmd_tol self) (cmd_atol self)
                (Some nash_list_flattened) n_iter)
  end.

(** [CMD.step(loss_list)]: one list of objectives in both roles. *)
Definition CMD_step (E : Autograd) (self : CMD) (loss_list : list (node E))
  : res CMD :=
  step_body E self loss_list loss_list.

(** [CMD_RL.step(grad_loss_list, hessian_loss_list)]. *)
Definition CMD_RL_step (E : Autograd) (self : CMD)
    (grad_loss_list hessian_loss_list : list (node E)) : res CMD :=
  step_body E self grad_loss_list hessian_loss_list.

End WithScalar.

End CmdUtils.

(** ** A differentiation engine for polynomial losses

    Losses built from Python numbers and parameter entries with [+], [*]
    and unary minus, differentiated symbolically the way the backward pass
    walks the graph: only through operands the differentiated tensor is
    reached from.  A parameter gets [None] exactly when no output reaches
    it, as with [allow_unused=True]; a tensor requires grad when a leaf
    occurs in it, and the second pass raises when none of its outputs
    does. *)

Module Poly.

Section WithScalar.

Context {Sc : Scalar}.

Inductive expr : Type :=
| Const (c : scalar)         (* a Python number *)
| Leaf (id k : nat)          (* entry [k] of the parameter tensor [id] *)
| Fresh                      (* entry of torch.zeros(n, requires_grad=True) *)
| Add (a b : expr)
| Mul (a b : expr)
| Neg (a : expr).

(** The values the leaves hold: tensor identifier, then entry. *)
Definition store : Type := nat -> nat -> scalar.

Fixpoint eval (st : store) (e : expr) : scalar :=
  match e with
  | Const c => c
  | Leaf id k => st id k
  | Fresh => 0
  | Add a b => eval st a + eval st b
  | Mul a b => eval st a * eval st b
  | Neg a => - eval st a
  end.

(** Whether the graph of [e] reaches the tensor [id]. *)
Fixpoint reaches (id : nat) (e : expr) : bool :=
  match e with
  | Const _ | Fresh => false
  | Leaf id' _ => id =? id'
  | Add a b | Mul a b => reaches id a || reaches id b
  | Neg a => reaches id a
  end.

(** Whether [e] carries a graph: some leaf occurs in it. *)
Fixpoint requires_grad (e : expr) : bool :=
  match e with
  | Const _ => false
  | Leaf _ _ | Fresh => true
  | Add a b | Mul a b => requires_grad a || requires_grad b
  | Neg a => requires_grad a
  end.

(** The partial derivative in entry [k] of tensor [id], as a graph.  The
    backward pass of a sum or a product visits an operand only when the
    tensor is reached from it. *)
Fixpoint deriv (id k : nat) (e : expr) : expr :=
  match e with
  | Const _ | Fresh => Const 0
  | Leaf id' k' => if (id =? id') && (k =? k') then Const 1 else Const 0
  | Add a b =>
      match reaches id a, reaches id b with
      | true, true => Add (deriv id k a) (deriv id k b)
      | true, false => deriv id k a
      | false, true => deriv id k b
      | false, false => Const 0
      end
  | Mul a b =>
      match reaches id a, reaches id b with
      | true, true => Add (Mul (deriv id k a) b) (Mul a (deriv id k b))
      | true, false => Mul (deriv id k a) b
      | false, true => Mul a (deriv id k b)
      | false, false => Const 0
      end
  | Neg a => Neg (deriv id k a)
  end.

(** [sum_m seeds[m] * d outputs[m] / d (id, k)], as a value. *)
Definition vjp_entry (st : store) (outputs : list expr) (seeds : vec)
    (id k : nat) : scalar :=
  fold_right add 0
    (map2 (fun s out => s * eval st (deriv id k out)) seeds outputs).

Definition poly_grad_graph (loss : expr) (params : list param)
  : list (option (tensor expr)) :=
  map (fun p =>
         if reaches (pid p) loss
         then Some (mkTensor (pshape p)
                      (map (fun k => deriv (pid p) k loss) (seq 0 (numel p))))
         else None)
      params.

(** The seeds are checked against the outputs first, then the outputs for
    a graph. *)
Definition poly_vjp (st : store) (outputs : list expr) (params : list param)
    (seeds : vec) : res (list (option (tensor scalar))) :=
  if length seeds =? length outputs then
    if existsb requires_grad outputs then
      Ok (map (fun p =>
                 if existsb (reaches (pid p)) outputs
                 then Some (mkTensor (pshape p)
                              (map (vjp_entry st outputs seeds (pid p))
                                   (seq 0 (numel p))))
                 else None)
              params)
    else Err (RuntimeError NoGraph)
  else Err (RuntimeError GradOutputs).

Definition poly_grad_value (st : store) (loss : expr) (params : list param)
  : list (option (tensor scalar)) :=
  map (option_map (fun t => mkTensor (tshape t) (map (eval st) (tdata t))))
      (poly_grad_graph loss params).

Definition engine (st : store) : Autograd :=
  {| node := expr;
     node_zero := Fresh;
     node_neg := Neg;
     grad_graph := poly_grad_graph;
     grad_value := poly_grad_value st;
     vjp := poly_vjp st |}.

(** The store a list of players holds: the entries of the first parameter
    tensor with the identifier, [0] elsewhere. *)
Definition store_of (players : list player) : store :=
  fun id k =>
    match find (fun p => pid p =? id) (concat players) with
    | Some p => nth k (pdata p) 0
    | None => 0
    end.

End WithScalar.

End Poly.

(** ** The operator block by block

    [avp] and [atvp] update [prod_list] in place inside two nested loops.
    [block_rows] is the same product read row by row: block [i] of the
    result is the sum over [j] of the product of block [(i, j)] with
    [v[j]]. *)

Module Design.

Import CmdUtils.

Section WithScalar.

Context {Sc : Scalar}.

Section Blocks.

Variable E : Autograd.
Variable hessian_loss_list : list (node E).
Variable player_list : list player.
Variable player_list_flattened : list vec.
Variable v : list vec.
Variable bregman : bregman.
Variable transpose : bool.

(** What the code adds to [y[i]] for the pair [(i, j)]: on the diagonal the
    Bregman term; off the diagonal the gradient of the objective of player
    [i] (of player [j] when transposed) in the parameters of player [j],
    differentiated again in the parameters of player [i] with seed [v[j]]. *)
Definition block_product (i j : nat) : res vec :=
  v_j <- py_index v j ;;
  if i =? j then
    x_i <- py_index player_list_flattened i ;;
    Dxx_vp bregman x_i v_j
  else
    col_params <- py_index player_list j ;;
    row_params <- py_index player_list i ;;
    loss <- py_index hessian_loss_list (if transpose then j else i) ;;
    hvp E loss col_params row_params v_j.

(** The off-diagonal pair as the specification words it: always the
    objective of player [j], and the seed [v[j]], or [v[i]] when
    transposed. *)
Definition block_product_spec (i j : nat) : res vec :=
  if i =? j then
    v_i <- py_index v i ;;
    x_i <- py_index player_list_flattened i ;;
    Dxx_vp bregman x_i v_i
  else
    col_params <- py_index player_list j ;;
    row_params <- py_index player_list i ;;
    loss <- py_index hessian_loss_list j ;;
    seed <- py_index v (if transpose then i else j) ;;
    hvp E loss col_params row_params seed.

(** [y[i]]: the blocks of row [i] added, in the order of [j], to a zero
    vector of the size of [v[i]]. *)
Definition row_sum (term : nat -> nat -> res vec) (n i : nat) : res vec :=
  v_i <- py_index v i ;;
  foldM (fun y j => t <- term i j ;; vadd_ y t) (seq 0 n) (zeros_like v_i).

Definition block_rows (term : nat -> nat -> res vec) (n : nat)
  : res (list vec) :=
  mapM (row_sum term n) (seq 0 n).

Definition avp_as_specified : res (list vec) :=
  block_rows block_product_spec (length player_list).

(** Row [i] with its diagonal term set apart: the terms of the columns
    before [i] added to the zero vector, then [diag], then the terms of the
    columns after [i]. *)
Definition row_around_diagonal (term : nat -> nat -> res vec)
    (diag : res vec) (n i : nat) : res vec :=
  v_i <- py_index v i ;;
  before <- foldM (fun y j => t <- term i j ;; vadd_ y t) (seq 0 i)
              (zeros_like v_i) ;;
  d <- diag ;;
  with_diag <- vadd_ before d ;;
  foldM (fun y j => t <- term i j ;; vadd_ y t) (seq (S i) (n - S i))
    with_diag.

End Blocks.

(** ** Well-formed inputs *)

(** A gradient list with one entry per parameter, each either [None] or a
    tensor with as many entries as its parameter. *)
Definition grad_entries_ok {A : Type} (gs : list (option (tensor A)))
    (ps : list param) : Prop :=
  Forall2 (fun g p => match g with
                      | Some t => length (tdata t) = numel p
                      | None => True
                      end) gs ps.

(** What the module expects of [torch.autograd.grad]: gradients shaped as
    the parameters they are taken in, from each pass that returns. *)
Record autograd_lawful (E : Autograd) : Prop := mkLawful {
  grad_graph_ok : forall loss ps, grad_entries_ok (grad_graph E loss ps) ps;
  grad_value_ok : forall loss ps, grad_entries_ok (grad_value E loss ps) ps;
  vjp_ok : forall outs ps seeds r,
    vjp E outs ps seeds = Ok r -> grad_entries_ok r ps
}.

(** The second differentiation pass of the pairs the operator visits
    returns: for players [i <> j] and the objective of either, the
    flattened gradient in the parameters of player [j] can be differentiated
    in the parameters of player [i] with every seed of its size.  (In torch:
    that gradient requires grad, which it does not when the objective is
    linear in the parameters of player [j] that it reaches.) *)
Definition second_pass_defined (E : Autograd)
    (hessian_loss_list : list (node E)) (player_list : list player) : Prop :=
  forall (i j : nat) (row col : player) (loss : node E) (g : list (node E))
         (seeds : vec),
    i <> j ->
    nth_error player_list i = Some row ->
    nth_error player_list j = Some col ->
    nth_error hessian_loss_list i = Some loss \/
    nth_error hessian_loss_list j = Some loss ->
    flatten_filter_none (node_zero E) (node_neg E)
      (grad_graph E loss col) col false false = Ok g ->
    length seeds = length g ->
    exists r, vjp E g row seeds = Ok r.

(** A sufficient test for the polynomial engine: the flattened gradient of
    every objective in the parameters of every player requires grad. *)
Definition graph_kept (loss : Poly.expr) (col : player) : bool :=
  match flatten_filter_none Poly.Fresh Poly.Neg
          (Poly.poly_grad_graph loss col) col false false with
  | Ok g => existsb Poly.requires_grad g
  | Err _ => true
  end.

Definition second_pass_check (hessian_loss_list : list Poly.expr)
    (player_list : list player) : bool :=
  forallb (fun col => forallb (fun loss => graph_kept loss col)
                        hessian_loss_list)
          player_list.

(** A potential whose three maps act entry by entry. *)
Record potential_elementwise (B : Potentials.bregman) : Prop := mkElementwise {
  Dx_len : forall x, exists y, Dx B x = Ok y /\ length y = length x;
  Dx_inv_len : forall x, exists y, Dx_inv B x = Ok y /\ length y = length x;
  Dxx_vp_len : forall x w,
    length x = length w ->
    exists y, Dxx_vp B x w = Ok y /\ length y = length w
}.

(** One vector per player, of the size of the player's flattened
    parameters. *)
Definition shaped (players : list player) (vs : list vec) : Prop :=
  Forall2 (fun u pl => length u = total_numel pl) vs players.

(** The three lists of vectors of a loop state have the game's shape. *)
Definition cg_state_shaped (players : list player) (st : CmdUtils.cg_state)
  : Prop :=
  shaped players (CmdUtils.cg_x st) /\
  shaped players (CmdUtils.cg_r st) /\
  shaped players (CmdUtils.cg_p st).

(** The squared residuals the loop of the solver computes, pass after
    pass, up to the pass it leaves at: [new_rdotr] of each pass, which the
    loop tests against the two thresholds. *)
Fixpoint cg_residuals (E : Autograd) (hessian_loss_list : list (node E))
    (player_list : list player) (player_list_flattened : list vec)
    (bregman : bregman) (atol residual_tol : scalar) (steps : list nat)
    (st : CmdUtils.cg_state) : res (list scalar) :=
  match steps with
  | [] => Ok []
  | _ :: steps' =>
      out <- cg_iteration E hessian_loss_list player_list
               player_list_flattened bregman atol residual_tol st ;;
      q <- sum_dots (cg_r (fst out)) (cg_r (fst out)) ;;
      if ltb q atol || ltb q residual_tol then Ok [q]
      else
        qs <- cg_residuals E hessian_loss_list player_list
                player_list_flattened bregman atol residual_tol steps'
                (fst out) ;;
        Ok (q :: qs)
  end.

(** An optimizer [step] can run on: there is a player, every player has a
    tensor, every tensor holds as many entries as its shape counts, the
    potential acts entry by entry, and the stored dual solution, if any,
    has the game's shape. *)
Definition cmd_wf (self : CmdUtils.CMD) : Prop :=
  CmdUtils.cmd_player_list self <> [] /\
  Forall (fun pl : player => pl <> []) (CmdUtils.cmd_player_list self) /\
  Forall (Forall param_wf) (CmdUtils.cmd_player_list self) /\
  potential_elementwise (CmdUtils.cmd_bregman self) /\
  match CmdUtils.cmd_last_dual_soln self with
  | Some g => shaped (CmdUtils.cmd_player_list self) g
  | None => True
  end.

(** Two lists of players with the same tensors, up to their entries. *)
Definition same_structure (players' players : list player) : Prop :=
  Forall2 (fun pl' pl : player => map pid pl' = map pid pl /\
                                  map pshape pl' = map pshape pl)
          players' players.

End WithScalar.

End Design.

(** ** Concrete games

    Games in [binary32].  Their numbers are small integers, on which
    float32 arithmetic is exact, except where a division or a large
    product is rounded. *)

Module Games.

Import CmdUtils Poly.

#[local] Existing Instance binary32.

(** Two players with one scalar parameter each, [x] and [y], both [0]. *)
Definition x_param : param := mkParam 0 [1%nat] [0].
Definition y_param : param := mkParam 1 [1%nat] [0].
Definition duel_players : list player := [[x_param]; [y_param]].
Definition duel_flattened : list vec := [[0]; [0]].

(** Player 0 minimises [2*x*y - x], player 1 minimises [2*y + y*y]. *)
Definition duel_losses : list expr :=
  [Add (Mul (Const (f32 2)) (Mul (Leaf 0 0) (Leaf 1 0))) (Neg (Leaf 0 0));
   Add (Mul (Const (f32 2)) (Leaf 1 0)) (Mul (Leaf 1 0) (Leaf 1 0))].

Definition duel_engine : Autograd := engine (store_of duel_players).


(** One player with the [2 x 2] parameter [[1, 2], [3, 4]] and the
    three-entry parameter [[5, 6, 7]]; [blank_player] has the same tensors
    holding zeros. *)
Definition w_param : param :=
  mkParam 0 [2%nat; 2%nat] [f32 1; f32 2; f32 3; f32 4].
Definition c_param : param :=
  mkParam 1 [3%nat] [f32 5; f32 6; f32 7].
Definition solo_player : player := [w_param; c_param].
Definition blank_player : player :=
  [mkParam 0 [2%nat; 2%nat] [0; 0; 0; 0]; mkParam 1 [3%nat] [0; 0; 0]].

(** The tolerances [1e-6] of the optimizer's defaults. *)
Definition default_tol : scalar := f32_ratio 1 1000000.

(** One player with the scalar parameter [x = 0] minimising [x*x + 3*x]. *)
Definition mono_player : player := [x_param].
Definition mono_loss : expr :=
  Add (Mul (Leaf 0 0) (Leaf 0 0)) (Mul (Const (f32 3)) (Leaf 0 0)).
Definition mono_engine : Autograd := engine (store_of [mono_player]).

(** The same player minimising [-3000000 * x], under
    [squared_distance(7)]. *)
Definition steep_loss : expr := Mul (Const (f32 (-3000000))) (Leaf 0 0).

(** What the solver computes before its loop in the duel game, and the
    state its loop is in after one pass, started cold. *)
Definition duel_setup : cg_setup_out :=
  Eval vm_compute in
    match cg_setup duel_engine duel_losses duel_losses duel_players
            duel_flattened (squared_distance 1) default_tol None with
    | Ok su => su
    | Err _ => mkSetup [] [] 0 0
    end.

Definition duel_first : cg_state :=
  Eval vm_compute in
    match cg_iteration duel_engine duel_losses duel_players duel_flattened
            (squared_distance 1) default_tol (su_residual_tol duel_setup)
            (cg_start duel_setup) with
    | Ok out => fst out
    | Err _ => mkCg [] [] [] 0
    end.

(** One player with the scalar parameter [x = 0] minimising [x*x]: the
    gradient vanishes where the player stands. *)
Definition rest_loss : expr := Mul (Leaf 0 0) (Leaf 0 0).

(** Optimizers as [CMD(player_list)] builds them, all other arguments at
    their defaults, before any gradient has been accumulated. *)
Definition duel_optimizer : CMD :=
  CMD_init duel_players [[None]; [None]] (squared_distance 1)
    default_tol default_tol.
Definition mono_optimizer : CMD :=
  CMD_init [mono_player] [[None]] (squared_distance 1)
    default_tol default_tol.

End Games.

(** * Properties *)

(** ** The result monad and list helpers *)

Lemma bind_Ok : forall (A B : Type) (c : res A) (k : A -> res B) (b : B),
  bind c k = Ok b -> exists a, c = Ok a /\ k a = Ok b.
Proof.
  intros A B [a | e] k b H; simpl in H; [eauto | discriminate].
Qed.

Lemma combine_app_same : forall (A B : Type) (xs1 xs2 : list A) (ys1 ys2 : list B),
  length xs1 = length ys1 ->
  combine (xs1 ++ xs2) (ys1 ++ ys2) = combine xs1 ys1 ++ combine xs2 ys2.
Proof.
  induction xs1 as [| x xs1 IH]; intros xs2 [| y ys1] ys2 H; simpl in *;
    try discriminate; [reflexivity |].
  f_equal. apply IH. lia.
Qed.

Lemma slice_middle : forall (A : Type) (pre mid post : list A),
  slice (pre ++ mid ++ post) (length pre) (length pre + length mid) = mid.
Proof.
  intros A pre mid post. unfold slice.
  replace (length pre + length mid - length pre)%nat with (length mid) by lia.
  rewrite skipn_app, Nat.sub_diag, skipn_all. simpl.
  rewrite firstn_app, Nat.sub_diag, firstn_all. simpl. apply app_nil_r.
Qed.

(** ** Flattening and the write-back *)

Section Flatten.

Context {Sc : Scalar}.

Import CmdUtils.

Lemma filter_none_app : forall (A : Type) (zero : A) gs1 gs2 ps1 ps2,
  length gs1 = length ps1 ->
  filter_none zero (gs1 ++ gs2) (ps1 ++ ps2)
  = filter_none zero gs1 ps1 ++ filter_none zero gs2 ps2.
Proof.
  intros A zero gs1 gs2 ps1 ps2 H. unfold filter_none.
  rewrite combine_app_same by assumption. apply map_app.
Qed.

Lemma filter_none_player : forall pl : player,
  filter_none 0 (map (fun p => Some (as_tensor p)) pl) pl = map pdata pl.
Proof.
  induction pl as [| p pl IH]; [reflexivity |].
  unfold filter_none in *. simpl. now rewrite IH.
Qed.

Lemma flatten_player_Ok : forall pl : player,
  pl <> [] -> flatten_player pl = Ok (concat (map pdata pl)).
Proof.
  intros pl Hne. unfold flatten_player, flatten_values, flatten_filter_none.
  rewrite filter_none_player. destruct pl; [congruence | reflexivity].
Qed.

Lemma length_flat_player : forall pl : player,
  Forall param_wf pl -> length (concat (map pdata pl)) = total_numel pl.
Proof.
  induction 1 as [| p pl Hp _ IH]; [reflexivity |].
  simpl. rewrite length_app, IH, Hp. reflexivity.
Qed.

(** The write-back reads its target's identifiers and shapes only: into any
    player with the tensors of [pl], the entries of [pl] write [pl]. *)
Lemma write_back_flat : forall (pl target : player) (pre post : vec),
  Forall param_wf pl ->
  map pid target = map pid pl ->
  map pshape target = map pshape pl ->
  write_back target (pre ++ concat (map pdata pl) ++ post) (length pre)
  = (pl, None).
Proof.
  induction pl as [| p pl IH]; intros [| t target] pre post Hwf Hid Hshape;
    simpl in Hid, Hshape; try discriminate; [reflexivity |].
  inversion Hwf as [| ? ? Hp Hpl]; subst.
  injection Hid as Hidt Hid. injection Hshape as Hst Hshape.
  assert (Hnt : numel t = numel p) by (unfold numel; now rewrite Hst).
  cbn [write_back]. rewrite Hnt, Hst, Hidt.
  cbn [map concat].
  rewrite <- Hp, <- app_assoc, slice_middle.
  unfold reshape. rewrite Hp. unfold numel. rewrite Nat.eqb_refl.
  cbn [tdata]. fold (numel p). rewrite <- Hp.
  replace (pre ++ pdata p ++ concat (map pdata pl) ++ post)
    with ((pre ++ pdata p) ++ concat (map pdata pl) ++ post)
    by now rewrite <- app_assoc.
  rewrite <- length_app, IH by assumption. simpl. now destruct p.
Qed.

(** C7. A player of at least one well-formed parameter tensor flattens to a
    vector whose length is the sum of the element counts of the tensors,
    and the write-back of [CMD.step] (slice by cumulative element counts,
    reshape to each tensor's shape) applied to that vector and to any
    player with the same tensors (identifiers and shapes, whatever entries
    they hold) raises nothing and yields the tensors that were flattened,
    shapes and entries. *)
Theorem flatten_write_back_round_trip : forall pl target : player,
  pl <> [] ->
  Forall param_wf pl ->
  map pid target = map pid pl ->
  map pshape target = map pshape pl ->
  exists flat : vec,
    flatten_player pl = Ok flat /\
    length flat = total_numel pl /\
    write_back target flat 0 = (pl, None).
Proof.
  intros pl target Hne Hwf Hid Hshape. exists (concat (map pdata pl)).
  split; [now apply flatten_player_Ok |].
  split; [now apply length_flat_player |].
  pose proof (@write_back_flat pl target [] [] Hwf Hid Hshape) as H.
  simpl in H. now rewrite app_nil_r in H.
Qed.

(** C8. A [None] in position [p] of the gradient list becomes a run of
    [numel] zeros of the parameter in that position, between the entries of
    the gradients before and after it, and the call returns; with
    [neg=True] the result is the same vector with every entry negated. *)
Theorem flatten_filter_none_null_gradient :
  forall (A : Type) (zero : A) (negate : A -> A)
         (gs1 gs2 : list (option (tensor A))) (ps1 ps2 : list param)
         (p : param) (detach : bool),
    length gs1 = length ps1 ->
    let flat := concat (filter_none zero gs1 ps1)
                ++ repeat zero (numel p)
                ++ concat (filter_none zero gs2 ps2) in
    flatten_filter_none zero negate (gs1 ++ None :: gs2) (ps1 ++ p :: ps2)
      detach false = Ok flat /\
    flatten_filter_none zero negate (gs1 ++ None :: gs2) (ps1 ++ p :: ps2)
      detach true = Ok (map negate flat).
Proof.
  intros A zero negate gs1 gs2 ps1 ps2 p detach Hlen flat.
  unfold flatten_filter_none.
  rewrite filter_none_app by assumption.
  assert (Hcat : torch_cat (filter_none zero gs1 ps1
                            ++ filter_none zero (None :: gs2) (p :: ps2))
                 = Ok flat).
  { unfold torch_cat, flat.
    assert (Hcc : concat (filter_none zero gs1 ps1
                          ++ filter_none zero (None :: gs2) (p :: ps2))
                  = concat (filter_none zero gs1 ps1)
                    ++ repeat zero (numel p)
                    ++ concat (filter_none zero gs2 ps2))
      by (rewrite concat_app; reflexivity).
    rewrite <- Hcc.
    destruct (filter_none zero gs1 ps1); reflexivity. }
  rewrite Hcat. simpl. split; reflexivity.
Qed.

Lemma length_slice : forall (A : Type) (v : list A) (lo hi : nat),
  length (slice v lo hi) = Nat.min (hi - lo) (length v - lo).
Proof.
  intros. unfold slice. now rewrite length_firstn, length_skipn.
Qed.

Lemma slice_app_next : forall (A : Type) (v : list A) (lo n m : nat),
  slice v lo (lo + n) ++ slice v (lo + n) (lo + n + m) = slice v lo (lo + n + m).
Proof.
  intros A v lo n m. unfold slice.
  replace (lo + n - lo)%nat with n by lia.
  replace (lo + n + m - (lo + n))%nat with m by lia.
  replace (lo + n + m - lo)%nat with (n + m)%nat by lia.
  rewrite Nat.add_comm with (n := lo) (m := n), <- skipn_skipn.
  generalize (skipn lo v) as w. clear v lo.
  induction n as [| n IH]; intros [| a w]; simpl;
    try now rewrite ?firstn_nil.
  f_equal. apply IH.
Qed.

Lemma reshape_slice_fit : forall (mapped : vec) (idx : nat) (p : param),
  (idx + numel p <= length mapped)%nat ->
  reshape (slice mapped idx (idx + numel p)) (pshape p)
  = Ok (mkTensor (pshape p) (slice mapped idx (idx + numel p))).
Proof.
  intros mapped idx p H. unfold reshape. rewrite length_slice.
  fold (numel p).
  destruct (Nat.eqb_spec (Nat.min (idx + numel p - idx) (length mapped - idx))
              (numel p)); [reflexivity | lia].
Qed.

Lemma reshape_slice_cut : forall (mapped : vec) (idx : nat) (p : param),
  (idx <= length mapped)%nat ->
  (length mapped < idx + numel p)%nat ->
  reshape (slice mapped idx (idx + numel p)) (pshape p)
  = Err (RuntimeError InvalidShape).
Proof.
  intros mapped idx p Hidx H. unfold reshape. rewrite length_slice.
  fold (numel p).
  destruct (Nat.eqb_spec (Nat.min (idx + numel p - idx) (length mapped - idx))
              (numel p)); [lia | reflexivity].
Qed.

(** A vector too short for the player: the loop raises at the first tensor
    whose slice is short, having overwritten the [k] tensors before it. *)
Lemma write_back_short : forall (pl : player) (mapped : vec) (idx : nat),
  (idx <= length mapped)%nat ->
  (length mapped < idx + total_numel pl)%nat ->
  exists k : nat,
    (k < length pl)%nat /\
    snd (write_back (firstn k pl) mapped idx) = None /\
    write_back pl mapped idx
    = (fst (write_back (firstn k pl) mapped idx) ++ skipn k pl,
       Some (RuntimeError InvalidShape)).
Proof.
  induction pl as [| p pl IH]; intros mapped idx Hidx Hlen; simpl in Hlen;
    [lia |].
  destruct (Nat.leb_spec (idx + numel p) (length mapped)) as [Hfit | Hcut].
  - destruct (IH mapped (idx + numel p)%nat) as (k & Hk & Hnone & Hrun);
      [lia | lia |].
    exists (S k). simpl. rewrite reshape_slice_fit by assumption.
    rewrite Hrun. simpl. repeat split; [lia | assumption].
  - exists 0%nat. simpl. rewrite reshape_slice_cut by assumption.
    repeat split. lia.
Qed.

(** A vector long enough: nothing is raised, the shapes stay, and the
    tensors receive the entries from [idx] on, [total_numel pl] of them. *)
Lemma write_back_enough : forall (pl : player) (mapped : vec) (idx : nat),
  (idx + total_numel pl <= length mapped)%nat ->
  snd (write_back pl mapped idx) = None /\
  map pshape (fst (write_back pl mapped idx)) = map pshape pl /\
  concat (map pdata (fst (write_back pl mapped idx)))
  = slice mapped idx (idx + total_numel pl).
Proof.
  induction pl as [| p pl IH]; intros mapped idx Hlen; simpl in *.
  - repeat split. unfold slice. now rewrite Nat.add_0_r, Nat.sub_diag.
  - rewrite reshape_slice_fit by lia. simpl.
    destruct (IH mapped (idx + numel p)%nat) as (Hnone & Hshape & Hdata);
      [lia |].
    repeat split; [assumption | now rewrite Hshape |].
    rewrite Hdata, Nat.add_assoc. apply slice_app_next.
Qed.

(** C9, amended. A mapped vector shorter than the sum of the element counts
    makes the write-back raise the size-mismatch error of [reshape], at the
    first tensor whose slice is short and after the tensors before it have
    been overwritten; a longer one raises nothing: every tensor keeps its
    shape and receives its slice of the leading entries, and the surplus
    is dropped. *)
Theorem write_back_length_mismatch : forall (pl : player) (mapped : vec),
  ((length mapped < total_numel pl)%nat ->
   exists k : nat,
     (k < length pl)%nat /\
     snd (write_back (firstn k pl) mapped 0) = None /\
     write_back pl mapped 0
     = (fst (write_back (firstn k pl) mapped 0) ++ skipn k pl,
        Some (RuntimeError InvalidShape))) /\
  ((total_numel pl < length mapped)%nat ->
   snd (write_back pl mapped 0) = None /\
   map pshape (fst (write_back pl mapped 0)) = map pshape pl /\
   concat (map pdata (fst (write_back pl mapped 0)))
   = firstn (total_numel pl) mapped).
Proof.
  intros pl mapped. split; intros H.
  - apply write_back_short; simpl; lia.
  - destruct (@write_back_enough pl mapped 0%nat) as (Hnone & Hshape & Hdata);
      [simpl; lia |].
    repeat split; try assumption.
    rewrite Hdata. unfold slice. simpl. now rewrite Nat.sub_0_r.
Qed.

End Flatten.

Section FlattenRuns.

Import CmdUtils Games.

#[local] Existing Instance binary32.

Lemma flatten_write_back_round_trip_witness :
  exists flat : vec,
    flatten_player solo_player = Ok flat /\
    length flat = total_numel solo_player /\
    write_back blank_player flat 0 = (solo_player, None).
Proof.
  apply flatten_write_back_round_trip.
  - discriminate.
  - repeat constructor.
  - reflexivity.
  - reflexivity.
Defined.

Lemma flatten_filter_none_null_gradient_witness :
  flatten_values [Some (as_tensor w_param); None]
    [w_param; c_param] false false
  = Ok ([f32 1; f32 2; f32 3; f32 4] ++ zeros 3 ++ []) /\
  flatten_values [Some (as_tensor w_param); None]
    [w_param; c_param] false true
  = Ok (map opp ([f32 1; f32 2; f32 3; f32 4] ++ zeros 3 ++ [])).
Proof.
  exact (@flatten_filter_none_null_gradient binary32 scalar 0 opp
           [Some (as_tensor w_param)] [] [w_param] []
           c_param false eq_refl).
Defined.

(** C9 as stated fails: a vector one entry too long for a player of one
    two-entry tensor is written back without any exception, its last entry
    dropped. *)
Lemma write_back_too_long_is_silent :
  let pl := [mkParam 0 [2%nat] [0; 0]] in
  let mapped := [f32 1; f32 2; f32 3] in
  length mapped <> total_numel pl /\
  write_back pl mapped 0 = ([mkParam 0 [2%nat] [f32 1; f32 2]], None).
Proof.
  split; [discriminate | reflexivity].
Qed.

Lemma write_back_length_mismatch_witness :
  (exists k : nat,
     (k < 2)%nat /\
     snd (write_back (firstn k solo_player) [f32 1; f32 2; f32 3; f32 4; f32 5] 0)
     = None /\
     write_back solo_player [f32 1; f32 2; f32 3; f32 4; f32 5] 0
     = (fst (write_back (firstn k solo_player)
               [f32 1; f32 2; f32 3; f32 4; f32 5] 0)
        ++ skipn k solo_player,
        Some (RuntimeError InvalidShape))) /\
  (snd (write_back [c_param] [f32 1; f32 2; f32 3; f32 4] 0) = None /\
   map pshape (fst (write_back [c_param] [f32 1; f32 2; f32 3; f32 4] 0))
   = [[3%nat]] /\
   concat (map pdata (fst (write_back [c_param] [f32 1; f32 2; f32 3; f32 4] 0)))
   = [f32 1; f32 2; f32 3]).
Proof.
  split.
  - apply (proj1 (write_back_length_mismatch solo_player
                    [f32 1; f32 2; f32 3; f32 4; f32 5])).
    simpl. lia.
  - apply (proj2 (write_back_length_mismatch [c_param]
                    [f32 1; f32 2; f32 3; f32 4])).
    simpl. lia.
Defined.

End FlattenRuns.

(** ** The meta-matrix operator, block by block *)

Lemma nth_error_enumerate : forall (A : Type) (xs : list A) (i : nat) (x : A),
  In (i, x) (enumerate xs) -> nth_error xs i = Some x.
Proof.
  intros A xs i x. unfold enumerate.
  assert (G : forall k, In (i, x) (combine (seq k (length xs)) xs) ->
                        (k <= i)%nat /\ nth_error xs (i - k) = Some x).
  { induction xs as [| a xs IH]; intros k Hin; simpl in Hin; [tauto |].
    destruct Hin as [Heq | Hin].
    - inversion Heq; subst. rewrite Nat.sub_diag. split; [lia | reflexivity].
    - apply IH in Hin. destruct Hin as [Hle Hnth].
      split; [lia |]. replace (i - k)%nat with (S (i - S k)) by lia.
      exact Hnth. }
  intros Hin. apply G in Hin. destruct Hin as [_ Hnth].
  now rewrite Nat.sub_0_r in Hnth.
Qed.

Lemma map_fst_enumerate : forall (A : Type) (xs : list A),
  map fst (enumerate xs) = seq 0 (length xs).
Proof.
  intros A xs. unfold enumerate. generalize 0%nat.
  induction xs as [| a xs IH]; intros k; simpl; [reflexivity |].
  now rewrite IH.
Qed.

Lemma nth_error_combine : forall (A B : Type) (xs : list A) (ys : list B)
    (i : nat) (x : A) (y : B),
  nth_error (combine xs ys) i = Some (x, y) ->
  nth_error xs i = Some x /\ nth_error ys i = Some y.
Proof.
  induction xs as [| a xs IH]; intros [| b ys] [| i] x y H; simpl in *;
    try discriminate.
  - inversion H; subst. split; reflexivity.
  - now apply IH.
Qed.

Lemma list_set_middle : forall (A : Type) (ys zs : list A) (z y : A),
  list_set (ys ++ z :: zs) (length ys) y = ys ++ y :: zs.
Proof.
  induction ys as [| a ys IH]; intros zs z y; simpl; [reflexivity |].
  now rewrite IH.
Qed.

Lemma nth_error_middle : forall (A : Type) (ys zs : list A) (z : A),
  nth_error (ys ++ z :: zs) (length ys) = Some z.
Proof.
  induction ys as [| a ys IH]; intros zs z; simpl; [reflexivity | apply IH].
Qed.

Lemma foldM_ext : forall (A S : Type) (f g : S -> A -> res S) (xs : list A) (s : S),
  (forall s' x, In x xs -> f s' x = g s' x) ->
  foldM f xs s = foldM g xs s.
Proof.
  induction xs as [| x xs IH]; intros s H; simpl; [reflexivity |].
  rewrite H by (now left). destruct (g s x); simpl; [| reflexivity].
  apply IH. intros s' y Hy. apply H. now right.
Qed.

Section BlockRows.

Context {Sc : Scalar}.

Import CmdUtils Design.

Variable E : Autograd.
Variable hessian_loss_list : list (node E).
Variable player_list : list player.
Variable player_list_flattened : list vec.
Variable v : list vec.
Variable bregman : bregman.
Variable transpose : bool.

Let term := block_product E hessian_loss_list player_list
              player_list_flattened v bregman transpose.

(** One pass through the body of the inner loop adds the block product to
    block [i] and leaves the other blocks alone. *)
Lemma avp_cell_adds : forall (ys zs : list vec) (z : vec) (row col : player)
    (j : nat) (v_j : vec),
  nth_error player_list (length ys) = Some row ->
  nth_error player_list j = Some col ->
  nth_error v j = Some v_j ->
  avp_cell E hessian_loss_list player_list_flattened bregman transpose
    (length ys) row (ys ++ z :: zs) (j, (col, v_j))
  = (t <- term (length ys) j ;; y <- vadd_ z t ;; Ok (ys ++ y :: zs)).
Proof.
  intros ys zs z row col j v_j Hrow Hcol Hv.
  unfold avp_cell, term, block_product, iadd_at, py_index. simpl.
  rewrite Hv, Hrow, Hcol, nth_error_middle. simpl.
  destruct (length ys =? j).
  - destruct (nth_error player_list_flattened (length ys)); simpl;
      [| reflexivity].
    destruct (Dxx_vp bregman _ v_j); simpl; [| reflexivity].
    destruct (vadd_ z _); simpl; [| reflexivity].
    now rewrite list_set_middle.
  - destruct (nth_error hessian_loss_list _); simpl; [| reflexivity].
    destruct (hvp E _ col row v_j); simpl; [| reflexivity].
    destruct (vadd_ z _); simpl; [| reflexivity].
    now rewrite list_set_middle.
Qed.

Lemma avp_inner_loop : forall (cells : list (nat * (player * vec)))
    (ys zs : list vec) (z : vec) (row : player),
  nth_error player_list (length ys) = Some row ->
  (forall j col v_j, In (j, (col, v_j)) cells ->
     nth_error player_list j = Some col /\ nth_error v j = Some v_j) ->
  foldM (avp_cell E hessian_loss_list player_list_flattened bregman
           transpose (length ys) row) cells (ys ++ z :: zs)
  = (y <- foldM (fun y j => t <- term (length ys) j ;; vadd_ y t)
            (map fst cells) z ;;
     Ok (ys ++ y :: zs)).
Proof.
  induction cells as [| [j [col v_j]] cells IH]; intros ys zs z row Hrow Hin;
    simpl; [reflexivity |].
  destruct (Hin j col v_j (or_introl eq_refl)) as [Hcol Hv].
  rewrite (@avp_cell_adds ys zs z row col j v_j Hrow Hcol Hv).
  destruct (term (length ys) j); simpl; [| reflexivity].
  destruct (vadd_ z a) as [y | e]; simpl; [| reflexivity].
  apply IH; [assumption |].
  intros j' col' v' H'. apply Hin. now right.
Qed.

Lemma avp_outer_loop : forall (cells : list (nat * (player * vec))) (n : nat)
    (rows : list player) (vs ys : list vec),
  map fst cells = seq 0 n ->
  length rows = length vs ->
  (forall i row, nth_error rows i = Some row ->
     nth_error player_list (length ys + i) = Some row) ->
  (forall i u, nth_error vs i = Some u ->
     nth_error v (length ys + i) = Some u) ->
  (forall j col v_j, In (j, (col, v_j)) cells ->
     nth_error player_list j = Some col /\ nth_error v j = Some v_j) ->
  foldM (fun prod_list irow =>
           foldM (avp_cell E hessian_loss_list player_list_flattened bregman
                    transpose (fst irow) (snd irow)) cells prod_list)
        (combine (seq (length ys) (length rows)) rows)
        (ys ++ map zeros_like vs)
  = (rest <- mapM (row_sum v term n) (seq (length ys) (length rows)) ;;
     Ok (ys ++ rest)).
Proof.
  intros cells n rows vs ys Hfst. revert vs ys.
  induction rows as [| row rows IH];
    intros [| u vs] ys Hlen Hrows Hvs Hcells; simpl in Hlen; try discriminate.
  - simpl. now rewrite app_nil_r.
  - simpl combine. simpl foldM. simpl map.
    assert (Hrow : nth_error player_list (length ys) = Some row)
      by (rewrite <- (Nat.add_0_r (length ys)); now apply Hrows).
    assert (Hu : nth_error v (length ys) = Some u)
      by (rewrite <- (Nat.add_0_r (length ys)); now apply Hvs).
    rewrite (@avp_inner_loop cells ys (map zeros_like vs) (zeros_like u) row
               Hrow Hcells).
    simpl mapM. unfold row_sum at 1. unfold py_index. rewrite Hu. simpl.
    rewrite Hfst.
    destruct (foldM _ (seq 0 n) (zeros_like u)) as [y | e]; simpl;
      [| reflexivity].
    replace (ys ++ y :: map zeros_like vs)
      with ((ys ++ [y]) ++ map zeros_like vs) by (now rewrite <- app_assoc).
    replace (S (length ys)) with (length (ys ++ [y]))
      by (rewrite length_app; simpl; lia).
    rewrite IH; try assumption; try lia.
    + destruct (mapM _ (seq (length (ys ++ [y])) (length rows))); simpl;
        [now rewrite <- app_assoc | reflexivity].
    + intros i r Hi. rewrite length_app. simpl.
      replace (length ys + 1 + i)%nat with (length ys + S i)%nat by lia.
      now apply Hrows.
    + intros i w Hi. rewrite length_app. simpl.
      replace (length ys + 1 + i)%nat with (length ys + S i)%nat by lia.
      now apply Hvs.
Qed.

End BlockRows.

Section MetaMatrixFacts.

Context {Sc : Scalar}.

Import CmdUtils Design.

(** The nested loops of [avp] computed row by row. *)
Lemma avp_rows : forall (E : Autograd)
    (hessian_loss_list : list (node E)) (player_list : list player)
    (player_list_flattened v : list vec) (bregman : bregman)
    (transpose : bool),
  length v = length player_list ->
  avp E hessian_loss_list player_list player_list_flattened v bregman
    transpose
  = block_rows v
      (block_product E hessian_loss_list player_list player_list_flattened
         v bregman transpose)
      (length player_list).
Proof.
  intros E hl pl pf v B tr Hlen. unfold avp, block_rows.
  pose proof (@avp_outer_loop _ E hl pl pf v B tr
                (enumerate (combine pl v)) (length pl) pl v []) as H.
  simpl in H. unfold enumerate at 2.
  rewrite H; clear H.
  - now destruct (mapM _ (seq 0 (length pl))).
  - rewrite map_fst_enumerate, length_combine, Hlen, Nat.min_id.
    reflexivity.
  - now symmetry.
  - auto.
  - auto.
  - intros j col v_j Hin. apply nth_error_enumerate in Hin.
    now apply nth_error_combine.
Qed.

(** C1, amended. For vectors [v] with one entry per player, block [i] of
    [avp] is the sum over [j] of the block products, and for [j <> i] the
    block product is: the gradient of the objective of player [i] when
    [transpose] is false (of player [j] when it is true) in the parameters
    of player [j], flattened with its graph kept, then its vector-Jacobian
    product in the parameters of player [i] seeded by [v[j]] in both
    cases, flattened. *)
Theorem avp_block_rows : forall (E : Autograd)
    (hessian_loss_list : list (node E)) (player_list : list player)
    (player_list_flattened v : list vec) (bregman : bregman)
    (transpose : bool),
  length v = length player_list ->
  avp E hessian_loss_list player_list player_list_flattened v bregman
    transpose
  = block_rows v
      (block_product E hessian_loss_list player_list player_list_flattened
         v bregman transpose)
      (length player_list) /\
  forall (i j : nat) (row col : player) (v_j : vec) (loss : node E),
    i <> j ->
    nth_error player_list i = Some row ->
    nth_error player_list j = Some col ->
    nth_error v j = Some v_j ->
    nth_error hessian_loss_list (if transpose then j else i) = Some loss ->
    block_product E hessian_loss_list player_list player_list_flattened v
      bregman transpose i j
    = (grad_flattened <-
         flatten_filter_none (node_zero E) (node_neg E)
           (grad_graph E loss col) col false false ;;
       hvp_raw <- vjp E grad_flattened row v_j ;;
       flatten_values hvp_raw row false false).
Proof.
  intros E hl pl pf v B tr Hlen. split; [now apply avp_rows |].
  intros i j row col v_j loss Hij Hrow Hcol Hv Hloss.
  unfold block_product, py_index. rewrite Hv. simpl.
  apply Nat.eqb_neq in Hij. rewrite Hij, Hcol, Hrow. simpl.
  rewrite Hloss. reflexivity.
Qed.

End MetaMatrixFacts.

Section MetaMatrixRuns.

Import CmdUtils Design Games.

#[local] Existing Instance binary32.

Lemma avp_block_rows_witness :
  avp duel_engine duel_losses duel_players
    duel_flattened [[f32 1]; [f32 10]] (squared_distance 1) false
  = block_rows [[f32 1]; [f32 10]]
      (block_product duel_engine duel_losses duel_players
         duel_flattened [[f32 1]; [f32 10]] (squared_distance 1) false)
      2 /\
  block_product duel_engine duel_losses duel_players
    duel_flattened [[f32 1]; [f32 10]] (squared_distance 1) false 0 1
  = (grad_flattened <-
       flatten_filter_none (node_zero duel_engine)
         (node_neg duel_engine)
         (grad_graph duel_engine (nth 0 duel_losses (Poly.Const 0))
            [y_param])
         [y_param] false false ;;
     hvp_raw <- vjp duel_engine grad_flattened [x_param]
                  [f32 10] ;;
     flatten_values hvp_raw [x_param] false false).
Proof.
  destruct (@avp_block_rows _ duel_engine duel_losses
              duel_players duel_flattened [[f32 1]; [f32 10]]
              (squared_distance 1) false eq_refl) as [Hrows Hblock].
  split; [exact Hrows |].
  apply Hblock; (reflexivity || discriminate).
Defined.

(** C1 as stated fails.  In the two-player game [duel] (objectives
    [2*x*y - x] and [2*y + y*y]) and for [v = ([1], [10])], [avp] returns
    [([21], [10])] where the product as specified is [([1], [12])], and
    with [transpose] it returns [([1], [12])] where the product as
    specified is [([1], [30])]. *)
Lemma avp_differs_from_specified :
  let v := [[f32 1]; [f32 10]] in
  let B := squared_distance 1 in
  (avp duel_engine duel_losses duel_players
     duel_flattened v B false = Ok [[f32 21]; [f32 10]] /\
   avp_as_specified duel_engine duel_losses duel_players
     duel_flattened v B false = Ok [[f32 1]; [f32 12]]) /\
  (avp duel_engine duel_losses duel_players
     duel_flattened v B true = Ok [[f32 1]; [f32 12]] /\
   avp_as_specified duel_engine duel_losses duel_players
     duel_flattened v B true = Ok [[f32 1]; [f32 30]]).
Proof.
  repeat split; reflexivity.
Qed.

End MetaMatrixRuns.

(** ** The exponential map *)

Section ExpMap.

Context {Sc : Scalar}.

Import CmdUtils Design.

Lemma map2_length : forall (A B C : Type) (f : A -> B -> C) (xs : list A) (ys : list B),
  length xs = length ys -> length (map2 f xs ys) = length xs.
Proof.
  induction xs as [| x xs IH]; intros [| y ys] H; simpl in *;
    try discriminate; [reflexivity |].
  f_equal. apply IH. lia.
Qed.

Lemma broadcast2_same_length : forall (f : scalar -> scalar -> scalar) (a b : vec),
  length a = length b -> broadcast2 f a b = Ok (map2 f a b).
Proof.
  intros f a b H. unfold broadcast2. rewrite H, Nat.eqb_refl. reflexivity.
Qed.

Lemma broadcast2__same_length : forall (f : scalar -> scalar -> scalar) (a b : vec),
  length a = length b -> broadcast2_ f a b = Ok (map2 f a b).
Proof.
  intros f a b H. unfold broadcast2_. rewrite H, Nat.eqb_refl. reflexivity.
Qed.

Lemma vscale_length : forall (v : vec) (alpha : scalar),
  length (vscale v alpha) = length v.
Proof.
  intros. unfold vscale. apply length_map.
Qed.

Lemma squared_distance_elementwise : forall alpha : scalar,
  potential_elementwise (squared_distance alpha).
Proof.
  intros alpha. constructor; simpl.
  - intros x. eexists. split; [reflexivity |]. unfold vdiv. apply length_map.
  - intros x. eexists. split; [reflexivity |]. unfold vscale. apply length_map.
  - intros x w _. eexists. split; [reflexivity |]. unfold vscale.
    apply length_map.
Qed.

Lemma shannon_entropy_elementwise : forall (exp log : scalar -> scalar) (alpha : scalar),
  potential_elementwise (shannon_entropy exp log alpha).
Proof.
  intros exp log alpha. constructor; simpl.
  - intros x. eexists. split; [reflexivity |]. unfold vdiv.
    now rewrite !length_map.
  - intros x. eexists. split; [reflexivity |]. apply length_map.
  - intros x w Hlen. rewrite broadcast2_same_length by congruence. simpl.
    eexists. split; [reflexivity |].
    rewrite vscale_length, map2_length; congruence.
Qed.

(** C6. For parameter and dual vectors that agree in number and, player by
    player, in length, and a potential whose maps act entry by entry (as
    [squared_distance] does), [exp_map] returns one vector per player,
    [mapped[i] = Dx(Dx_inv(param[i]) + Dxx_vp(param[i], dual[i]))], of the
    length of [param[i]]. *)
Theorem exp_map_entries : forall (B : bregman) (params duals : list vec)
    (in_place : bool),
  potential_elementwise B ->
  Forall2 (fun x d => length x = length d) params duals ->
  exists mapped : list vec,
    exp_map params duals B in_place = Ok mapped /\
    Forall2 (fun xd m =>
               exists a b s : vec,
                 Dx_inv B (fst xd) = Ok a /\
                 Dxx_vp B (fst xd) (snd xd) = Ok b /\
                 vadd a b = Ok s /\
                 Dx B s = Ok m /\
                 length m = length (fst xd))
            (combine params duals) mapped.
Proof.
  intros B params duals in_place HB Hlen. unfold exp_map.
  induction Hlen as [| x d params duals Hxd _ IH]; simpl.
  - exists []. split; [reflexivity | constructor].
  - destruct (Dx_inv_len HB x) as (a & Ha & Hla).
    destruct (Dxx_vp_len HB x d Hxd) as (b & Hb & Hlb).
    assert (Hs : vadd a b = Ok (map2 add a b))
      by (apply broadcast2_same_length; congruence).
    destruct (Dx_len HB (map2 add a b)) as (m & Hm & Hlm).
    destruct IH as (mapped & Hmapped & Hall).
    exists (m :: mapped). rewrite Ha, Hb. simpl. rewrite Hs. simpl.
    rewrite Hm. simpl. rewrite Hmapped. simpl. split; [reflexivity |].
    constructor; [| assumption].
    exists a, b, (map2 add a b). simpl. repeat split; try assumption.
    rewrite Hlm, map2_length; congruence.
Qed.

End ExpMap.

Section ExpMapRuns.

Import CmdUtils Design.

#[local] Existing Instance binary32.

Lemma exp_map_entries_witness :
  exists mapped : list vec,
    exp_map [[f32 1; f32 2]; [f32 3]] [[f32 4; f32 5]; [f32 6]]
      (squared_distance 1) true = Ok mapped /\
    Forall2 (fun xd m =>
               exists a b s : vec,
                 Dx_inv (squared_distance 1) (fst xd) = Ok a /\
                 Dxx_vp (squared_distance 1) (fst xd) (snd xd) = Ok b /\
                 vadd a b = Ok s /\
                 Dx (squared_distance 1) s = Ok m /\
                 length m = length (fst xd))
            (combine [[f32 1; f32 2]; [f32 3]] [[f32 4; f32 5]; [f32 6]]) mapped.
Proof.
  apply exp_map_entries.
  - apply squared_distance_elementwise.
  - repeat constructor.
Defined.

End ExpMapRuns.

Lemma mapM_length : forall (A B : Type) (f : A -> res B) (xs : list A)
    (ys : list B),
  mapM f xs = Ok ys -> length ys = length xs.
Proof.
  induction xs as [| x xs IH]; intros ys H; simpl in H.
  - now inversion H.
  - apply bind_Ok in H. destruct H as (y & _ & H).
    apply bind_Ok in H. destruct H as (ys' & Hys & H).
    inversion H; subst. simpl. f_equal. now apply IH.
Qed.

Lemma mapM_ext : forall (A B : Type) (f g : A -> res B) (xs : list A),
  (forall x, In x xs -> f x = g x) -> mapM f xs = mapM g xs.
Proof.
  induction xs as [| x xs IH]; intros H; simpl; [reflexivity |].
  rewrite (H x) by now left. rewrite IH; [reflexivity |].
  intros y Hy. apply H. now right.
Qed.

Lemma foldM_app : forall (A S : Type) (f : S -> A -> res S) (xs ys : list A)
    (s : S),
  foldM f (xs ++ ys) s = (s' <- foldM f xs s ;; foldM f ys s').
Proof.
  induction xs as [| x xs IH]; intros ys s; simpl; [reflexivity |].
  destruct (f s x); simpl; [apply IH | reflexivity].
Qed.

Lemma seq_around : forall n i : nat,
  (i < n)%nat -> seq 0 n = seq 0 i ++ i :: seq (S i) (n - S i).
Proof.
  intros n i Hi.
  replace n with (i + S (n - S i))%nat at 1 by lia.
  rewrite seq_app. reflexivity.
Qed.

(** ** Diagonal blocks and the transposed product *)

Section Diagonal.

Context {Sc : Scalar}.

Import CmdUtils Design.

Lemma zeros_like_length : forall v : vec, length (zeros_like v) = length v.
Proof.
  intros v. unfold zeros_like, zeros. apply repeat_length.
Qed.

Lemma zeros_like_plus : forall v w : vec,
  length v = length w -> map2 add (zeros_like v) w = map (add 0) w.
Proof.
  unfold zeros_like, zeros.
  induction v as [| x v IH]; intros [| y w] H; simpl in *;
    try discriminate; [reflexivity |].
  f_equal. apply IH. lia.
Qed.

Lemma vadd__zeros_like : forall v w : vec,
  length v = length w -> vadd_ (zeros_like v) w = Ok (map (add 0) w).
Proof.
  intros v w H. unfold vadd_.
  rewrite broadcast2__same_length by (now rewrite zeros_like_length).
  now rewrite zeros_like_plus.
Qed.

(** With one player the operator is the Bregman term alone, added to the
    zero vector. *)
Lemma avp_single_player : forall (E : Autograd) (hl : list (node E))
    (pl : player) (x v : vec) (alpha : scalar) (transpose : bool),
  avp E hl [pl] [x] [v] (squared_distance alpha) transpose
  = Ok [map (add 0) (vscale v alpha)].
Proof.
  intros. unfold avp, enumerate, avp_cell, iadd_at, py_index. simpl.
  rewrite vadd__zeros_like by (now rewrite vscale_length). reflexivity.
Qed.

Lemma map_unchanged : forall (A : Type) (f : A -> A) (xs : list A),
  (forall x, In x xs -> f x = x) -> map f xs = xs.
Proof.
  induction xs as [| x xs IH]; intros H; simpl; [reflexivity |].
  rewrite H by (now left). f_equal. apply IH. intros y Hy. apply H. now right.
Qed.

(** Row [i] of the block form, with its diagonal term set apart. *)
Lemma row_sum_around_diagonal : forall (v : list vec)
    (term : nat -> nat -> res vec) (n i : nat),
  (i < n)%nat ->
  row_sum v term n i = row_around_diagonal v term (term i i) n i.
Proof.
  intros v term n i Hi. unfold row_sum, row_around_diagonal.
  destruct (py_index v i) as [v_i | e]; simpl; [| reflexivity].
  rewrite (seq_around Hi), foldM_app.
  destruct (foldM _ (seq 0 i) (zeros_like v_i)) as [before | e]; simpl;
    [| reflexivity].
  destruct (term i i) as [d | e]; simpl; [| reflexivity].
  destruct (vadd_ before d); reflexivity.
Qed.

Lemma block_product_diagonal : forall (E : Autograd) (hl : list (node E))
    (pl : list player) (pf v : list vec) (B : bregman) (transpose : bool)
    (i : nat),
  block_product E hl pl pf v B transpose i i
  = (v_i <- py_index v i ;; x_i <- py_index pf i ;; Dxx_vp B x_i v_i).
Proof.
  intros. unfold block_product. now rewrite Nat.eqb_refl.
Qed.

End Diagonal.

Lemma mapM_Ok_Forall2 : forall (A B : Type) (f : A -> res B) (xs : list A),
  (forall x, In x xs -> exists y, f x = Ok y) ->
  exists ys, mapM f xs = Ok ys /\ Forall2 (fun x y => f x = Ok y) xs ys.
Proof.
  induction xs as [| x xs IH]; intros H; simpl.
  - exists []. split; [reflexivity | constructor].
  - destruct (H x (or_introl eq_refl)) as [y Hy].
    destruct IH as (ys & Hys & Hall); [intros; apply H; now right |].
    exists (y :: ys). rewrite Hy. simpl. rewrite Hys. simpl.
    split; [reflexivity | now constructor].
Qed.

Lemma Forall2_nth_error_l : forall (A B : Type) (R : A -> B -> Prop)
    (xs : list A) (ys : list B) (i : nat) (x : A),
  Forall2 R xs ys -> nth_error xs i = Some x ->
  exists y, nth_error ys i = Some y /\ R x y.
Proof.
  intros A B R xs ys i x H. revert i.
  induction H as [| a b xs ys Hab _ IH]; intros [| i] Hi; simpl in *;
    try discriminate.
  - inversion Hi; subst. eauto.
  - now apply IH.
Qed.

Lemma enumerate_nth_error : forall (A : Type) (xs : list A) (i : nat) (x : A),
  nth_error xs i = Some x -> nth_error (enumerate xs) i = Some (i, x).
Proof.
  intros A xs i x. unfold enumerate.
  assert (G : forall k, nth_error xs i = Some x ->
                        nth_error (combine (seq k (length xs)) xs) i
                        = Some ((k + i)%nat, x)).
  { revert i. induction xs as [| a xs IH]; intros [| i] k Hi; simpl in *;
      try discriminate.
    - inversion Hi; subst. now rewrite Nat.add_0_r.
    - rewrite IH by assumption. do 2 f_equal. lia. }
  intros Hi. now rewrite G.
Qed.

Lemma foldM_rel : forall (A B S : Type) (R : A -> B -> Prop)
    (f : S -> A -> res S) (g : S -> B -> res S) (xs : list A) (ys : list B),
  Forall2 R xs ys ->
  (forall x y s, R x y -> In y ys -> f s x = g s y) ->
  forall s, foldM f xs s = foldM g ys s.
Proof.
  intros A B S R f g xs ys H.
  induction H as [| x y xs ys Hxy _ IH]; intros Hfg s; simpl;
    [reflexivity |].
  rewrite (Hfg x y s Hxy (or_introl eq_refl)).
  destruct (g s y); simpl; [| reflexivity].
  apply IH. intros x' y' s' HR Hin. apply Hfg; [assumption | now right].
Qed.

Lemma enumerate_zip_rel : forall (A B : Type) (xs : list A) (ys : list B) (k : nat),
  (length ys <= length xs)%nat ->
  Forall2 (fun a b => fst a = fst b /\ snd a = snd (snd b))
    (combine (seq k (length ys)) ys)
    (combine (seq k (length (combine xs ys))) (combine xs ys)).
Proof.
  induction xs as [| x xs IH]; intros [| y ys] k H; simpl in *;
    try constructor; try lia.
  - split; reflexivity.
  - apply IH. lia.
Qed.

Section Transposed.

Context {Sc : Scalar}.

Import CmdUtils Design.

Variable E : Autograd.
Variable hessian_loss_list : list (node E).
Variable player_list : list player.
Variable player_list_flattened : list vec.
Variable bregman : bregman.

(** The gradient [atvp] computes ahead for column [j]. *)
Let col_grad (jcol : nat * player) : res (list (node E)) :=
  loss <- py_index hessian_loss_list (fst jcol) ;;
  flatten_filter_none (node_zero E) (node_neg E)
    (grad_graph E loss (snd jcol)) (snd jcol) false false.

Lemma col_grads_Ok :
  autograd_lawful E ->
  (length player_list <= length hessian_loss_list)%nat ->
  Forall (fun col : player => col <> []) player_list ->
  exists col_grads,
    mapM col_grad (enumerate player_list) = Ok col_grads /\
    Forall2 (fun jcol g => col_grad jcol = Ok g)
      (enumerate player_list) col_grads.
Proof.
  intros Hlaw Hlen Hne. apply mapM_Ok_Forall2.
  intros [j col] Hin. apply nth_error_enumerate in Hin.
  unfold col_grad, py_index. simpl.
  assert (Hj : (j < length hessian_loss_list)%nat).
  { apply Nat.lt_le_trans with (length player_list); [| assumption].
    apply nth_error_Some. congruence. }
  destruct (nth_error hessian_loss_list j) as [loss |] eqn:Hloss;
    [| apply nth_error_None in Hloss; lia].
  simpl. unfold flatten_filter_none, filter_none.
  pose proof (grad_graph_ok Hlaw loss col) as Hok.
  assert (Hcol : col <> []).
  { rewrite Forall_forall in Hne. apply Hne.
    eapply nth_error_In; eassumption. }
  destruct Hok as [| g p gs ps _ _]; [congruence |].
  simpl. eauto.
Qed.

Lemma atvp_cell_as_avp_cell : forall (col_grads : list (list (node E)))
    (i j : nat) (row col : player) (prod_list : list vec) (v_j : vec)
    (g : list (node E)),
  col_grad (j, col) = Ok g ->
  nth_error col_grads j = Some g ->
  atvp_cell E col_grads player_list_flattened bregman i row prod_list
    (j, v_j)
  = avp_cell E hessian_loss_list player_list_flattened bregman true i row
      prod_list (j, (col, v_j)).
Proof.
  intros col_grads i j row col prod_list v_j g Hg Hnth.
  unfold atvp_cell, avp_cell. simpl.
  destruct (i =? j); [reflexivity |].
  unfold col_grad in Hg. simpl in Hg.
  apply bind_Ok in Hg. destruct Hg as (loss & Hloss & Hflat).
  rewrite Hloss. simpl. unfold hvp. rewrite Hflat. simpl.
  unfold py_index. rewrite Hnth. simpl.
  destruct (vjp E g row v_j); simpl; [| reflexivity].
  destruct (flatten_values a row false false); reflexivity.
Qed.

End Transposed.

(** ** The polynomial engine is lawful *)

Section PolyLaws.

Context {Sc : Scalar}.

Import CmdUtils Design Poly.

Lemma Forall2_map_l : forall (A B : Type) (R : B -> A -> Prop) (f : A -> B)
    (xs : list A),
  (forall x, R (f x) x) -> Forall2 R (map f xs) xs.
Proof.
  induction xs as [| x xs IH]; intros H; simpl; constructor; auto.
Qed.

Lemma poly_grad_graph_ok : forall (loss : expr) (ps : list param),
  grad_entries_ok (poly_grad_graph loss ps) ps.
Proof.
  intros loss ps. unfold grad_entries_ok, poly_grad_graph.
  apply Forall2_map_l. intros p.
  destruct (reaches (pid p) loss); [| exact I].
  simpl. now rewrite length_map, length_seq.
Qed.

Lemma poly_grad_value_ok : forall (st : store) (loss : expr) (ps : list param),
  grad_entries_ok (poly_grad_value st loss ps) ps.
Proof.
  intros st loss ps. unfold grad_entries_ok, poly_grad_value, poly_grad_graph.
  rewrite map_map. apply Forall2_map_l. intros p.
  destruct (reaches (pid p) loss); [| exact I].
  simpl. now rewrite !length_map, length_seq.
Qed.

Lemma poly_vjp_ok : forall (st : store) (outs : list expr) (ps : list param)
    (seeds : vec) (r : list (option (tensor scalar))),
  poly_vjp st outs ps seeds = Ok r -> grad_entries_ok r ps.
Proof.
  intros st outs ps seeds r H. unfold poly_vjp in H.
  destruct (length seeds =? length outs); [| discriminate].
  destruct (existsb requires_grad outs); [| discriminate].
  injection H as <-.
  apply Forall2_map_l. intros p.
  destruct (existsb (reaches (pid p)) outs); [| exact I].
  simpl. now rewrite length_map, length_seq.
Qed.

Lemma engine_lawful : forall st : store, autograd_lawful (engine st).
Proof.
  intros st. constructor; simpl.
  - apply poly_grad_graph_ok.
  - apply poly_grad_value_ok.
  - apply poly_vjp_ok.
Qed.

(** The second pass of the polynomial engine returns exactly when the
    seeds have the size of the outputs and an output requires grad. *)
Lemma poly_vjp_returns : forall (st : store) (outs : list expr)
    (ps : list param) (seeds : vec),
  (exists r, poly_vjp st outs ps seeds = Ok r) <->
  length seeds = length outs /\ existsb requires_grad outs = true.
Proof.
  intros st outs ps seeds. unfold poly_vjp.
  destruct (Nat.eqb_spec (length seeds) (length outs)) as [Hlen | Hlen].
  - destruct (existsb requires_grad outs).
    + split; [auto | eauto].
    + split; [intros [r H]; discriminate | intros [_ H]; discriminate].
  - split; [intros [r H]; discriminate | intros [H _]; contradiction].
Qed.

(** A game passes [second_pass_check] only if the second pass of each of
    its pairs is defined. *)
Lemma second_pass_check_sound : forall (st : store) (hl : list expr)
    (pl : list player),
  second_pass_check hl pl = true ->
  second_pass_defined (engine st) hl pl.
Proof.
  intros st hl pl Hcheck i j row col loss g seeds _ _ Hcol Hloss Hg Hlen.
  unfold second_pass_check in Hcheck. rewrite forallb_forall in Hcheck.
  pose proof (Hcheck col (nth_error_In _ _ Hcol)) as Hc.
  rewrite forallb_forall in Hc.
  assert (Hin : In loss hl)
    by (destruct Hloss as [H | H]; eapply nth_error_In; exact H).
  pose proof (Hc loss Hin) as Hk. unfold graph_kept in Hk.
  simpl in Hg. rewrite Hg in Hk.
  apply poly_vjp_returns. auto.
Qed.

End PolyLaws.

Section ProductClaims.

Context {Sc : Scalar}.

Import CmdUtils Design.

(** C2. For a lawful engine, at least one Hessian objective per player, at
    most one input vector per player and players with at least one
    parameter tensor each, [atvp], which takes every player's first-order
    gradient once and ahead of the loops, returns what [avp] returns on the
    same inputs with [transpose=True] (the same vectors, or the same
    exception). *)
Theorem atvp_matches_transposed_avp : forall (E : Autograd)
    (hessian_loss_list : list (node E)) (player_list : list player)
    (player_list_flattened v : list vec) (bregman : bregman),
  autograd_lawful E ->
  (length player_list <= length hessian_loss_list)%nat ->
  (length v <= length player_list)%nat ->
  Forall (fun col : player => col <> []) player_list ->
  atvp E hessian_loss_list player_list player_list_flattened v bregman
  = avp E hessian_loss_list player_list player_list_flattened v bregman true.
Proof.
  intros E hl pl pf v B Hlaw Hlen Hv Hne.
  destruct (@col_grads_Ok _ E hl pl Hlaw Hlen Hne) as (col_grads & Hmap & Hall).
  unfold atvp, avp.
  match goal with
  | |- bind ?c _ = _ => replace c with (Ok col_grads) by (symmetry; exact Hmap)
  end.
  simpl. apply foldM_ext. intros prod_list [i row] _. simpl.
  apply foldM_rel with
    (R := fun (a : nat * vec) (b : nat * (player * vec)) =>
            fst a = fst b /\ snd a = snd (snd b)).
  - unfold enumerate. now apply enumerate_zip_rel.
  - intros [j v_j] [j' [col v']] s [Hj Hvj] Hin. simpl in Hj, Hvj. subst j' v'.
    apply nth_error_enumerate in Hin.
    apply nth_error_combine in Hin. destruct Hin as [Hcol _].
    apply enumerate_nth_error in Hcol.
    destruct (Forall2_nth_error_l _ Hall Hcol) as (g & Hg & Hgrad).
    now apply atvp_cell_as_avp_cell with (g := g).
Qed.

(** The product of [atvp] row by row: the one of [avp] with
    [transpose=True]. *)
Lemma atvp_rows : forall (E : Autograd)
    (hl : list (node E)) (pl : list player) (pf v : list vec) (B : bregman),
  autograd_lawful E ->
  (length pl <= length hl)%nat ->
  length v = length pl ->
  Forall (fun col : player => col <> []) pl ->
  atvp E hl pl pf v B
  = block_rows v (block_product E hl pl pf v B true) (length pl).
Proof.
  intros E hl pl pf v B Hlaw Hlen Hv Hne.
  rewrite <- (@avp_rows _ E hl pl pf v B true Hv).
  destruct (@col_grads_Ok _ E hl pl Hlaw Hlen Hne) as (col_grads & Hmap & Hall).
  unfold atvp, avp.
  match goal with
  | |- bind ?c _ = _ => replace c with (Ok col_grads) by (symmetry; exact Hmap)
  end.
  cbn [bind]. apply foldM_ext. intros prod_list [i row] _. cbn [fst snd].
  apply foldM_rel with
    (R := fun (a : nat * vec) (b : nat * (player * vec)) =>
            fst a = fst b /\ snd a = snd (snd b)).
  - unfold enumerate. apply enumerate_zip_rel. lia.
  - intros [j v_j] [j' [col v']] s [Hj Hvj] Hin. simpl in Hj, Hvj. subst j' v'.
    apply nth_error_enumerate in Hin.
    apply nth_error_combine in Hin. destruct Hin as [Hcol _].
    apply enumerate_nth_error in Hcol.
    destruct (Forall2_nth_error_l _ Hall Hcol) as (g & Hg & Hgrad).
    now apply atvp_cell_as_avp_cell with (g := g).
Qed.

Lemma rows_around_diagonal : forall (E : Autograd) (hl : list (node E))
    (pl : list player) (pf v : list vec) (B : bregman) (transpose : bool),
  block_rows v (block_product E hl pl pf v B transpose) (length pl)
  = mapM (fun i =>
            row_around_diagonal v (block_product E hl pl pf v B transpose)
              (v_i <- py_index v i ;;
               x_i <- py_index pf i ;;
               Dxx_vp B x_i v_i)
              (length pl) i)
         (seq 0 (length pl)).
Proof.
  intros E hl pl pf v B transpose. unfold block_rows.
  apply mapM_ext. intros i Hi. apply in_seq in Hi.
  rewrite row_sum_around_diagonal by lia.
  now rewrite block_product_diagonal.
Qed.

Lemma single_player_unchanged : forall u : vec,
  (forall q : scalar, In q u -> 0 + q * 1 = q) ->
  map (add 0) (vscale u 1) = u.
Proof.
  intros u H. unfold vscale. rewrite map_map. now apply map_unchanged.
Qed.

(** C5. In a game of any number of players, block [i] of [avp] (with
    either value of [transpose]) and of [atvp] is: the zero vector, plus
    the off-diagonal terms of the columns before [i], plus exactly
    [Dxx_vp(flattened_param[i], v[i])], plus the off-diagonal terms of the
    columns after [i], each sum taken in place.  So in a game of one player
    under [squared_distance(1)] the product, transposed or not, is
    [0 + v * 1] entry by entry: the input vector itself wherever
    [0 + q * 1] is [q] (in [binary32]: every entry but a NaN and the
    negative zero). *)
Theorem diagonal_block_is_bregman_term :
  forall (E : Autograd) (hl : list (node E)) (pl : list player)
         (pf v : list vec) (B : bregman),
    let diag := fun i : nat =>
      v_i <- py_index v i ;; x_i <- py_index pf i ;; Dxx_vp B x_i v_i in
    let rows := fun transpose : bool =>
      mapM (fun i : nat =>
              row_around_diagonal v (block_product E hl pl pf v B transpose)
                (diag i) (length pl) i)
           (seq 0 (length pl)) in
    (forall transpose : bool,
       length v = length pl ->
       avp E hl pl pf v B transpose = rows transpose) /\
    (autograd_lawful E ->
     (length pl <= length hl)%nat ->
     length v = length pl ->
     Forall (fun col : player => col <> []) pl ->
     atvp E hl pl pf v B = rows true) /\
    (forall (p : player) (x u : vec) (transpose : bool),
       (forall q : scalar, In q u -> 0 + q * 1 = q) ->
       avp E hl [p] [x] [u] (squared_distance 1) transpose = Ok [u]) /\
    (forall (p : player) (x u : vec),
       autograd_lawful E -> hl <> [] -> p <> [] ->
       (forall q : scalar, In q u -> 0 + q * 1 = q) ->
       atvp E hl [p] [x] [u] (squared_distance 1) = Ok [u]).
Proof.
  intros E hl pl pf v B diag rows. split; [| split; [| split]].
  - intros transpose Hv. rewrite avp_rows by assumption.
    apply rows_around_diagonal.
  - intros Hlaw Hlen Hv Hne. rewrite atvp_rows by assumption.
    apply rows_around_diagonal.
  - intros p x u transpose Hu. rewrite avp_single_player.
    now rewrite single_player_unchanged.
  - intros p x u Hlaw Hhl Hp Hu.
    rewrite atvp_rows;
      [| assumption | destruct hl; [congruence | simpl; lia] | reflexivity
       | now constructor].
    rewrite <- avp_rows by reflexivity.
    rewrite avp_single_player. now rewrite single_player_unchanged.
Qed.

End ProductClaims.

Section ProductRuns.

Import CmdUtils Design Games.

#[local] Existing Instance binary32.

Lemma atvp_matches_transposed_avp_witness :
  atvp duel_engine duel_losses duel_players
    duel_flattened [[f32 1]; [f32 10]] (squared_distance 1)
  = avp duel_engine duel_losses duel_players
      duel_flattened [[f32 1]; [f32 10]] (squared_distance 1) true.
Proof.
  apply (@atvp_matches_transposed_avp binary32).
  - apply engine_lawful.
  - simpl. lia.
  - simpl. lia.
  - repeat constructor; discriminate.
Defined.

(** Outside these conditions the two differ: with one player and two
    input vectors [avp] leaves the second block zero while [atvp] indexes
    its list of gradients out of range. *)
Example atvp_surplus_vector_raises :
  avp duel_engine duel_losses [[x_param]] [[0]]
    [[f32 1]; [f32 10]] (squared_distance 1) true = Ok [[f32 1]; [0]] /\
  atvp duel_engine duel_losses [[x_param]] [[0]]
    [[f32 1]; [f32 10]] (squared_distance 1) = Err IndexError.
Proof.
  split; reflexivity.
Qed.

Lemma diagonal_block_is_bregman_term_witness :
  let v := [[f32 1]; [f32 10]] in
  let B := squared_distance 1 in
  let rows := fun transpose : bool =>
    mapM (fun i : nat =>
            row_around_diagonal v
              (block_product duel_engine duel_losses duel_players
                 duel_flattened v B transpose)
              (v_i <- py_index v i ;;
               x_i <- py_index duel_flattened i ;;
               Dxx_vp B x_i v_i)
              2 i)
         [0%nat; 1%nat] in
  (avp duel_engine duel_losses duel_players duel_flattened v B false
   = rows false /\
   atvp duel_engine duel_losses duel_players duel_flattened v B
   = rows true) /\
  (avp mono_engine [mono_loss] [mono_player] [[0]] [[f32 7]]
     (squared_distance 1) true = Ok [[f32 7]] /\
   atvp mono_engine [mono_loss] [mono_player] [[0]] [[f32 7]]
     (squared_distance 1) = Ok [[f32 7]]).
Proof.
  intros v B rows.
  destruct (@diagonal_block_is_bregman_term binary32 duel_engine duel_losses
              duel_players duel_flattened v B) as (Havp & Hatvp & _).
  destruct (@diagonal_block_is_bregman_term binary32 mono_engine [mono_loss]
              [mono_player] [[0]] [[f32 7]] (squared_distance 1))
    as (_ & _ & Hone & Hone').
  assert (Hu : forall q : scalar, In q [f32 7] -> 0 + q * 1 = q).
  { intros q [<- | []]. reflexivity. }
  split; [split | split].
  - apply (Havp false). reflexivity.
  - apply Hatvp.
    + apply engine_lawful.
    + simpl. lia.
    + reflexivity.
    + repeat constructor; discriminate.
  - apply Hone. exact Hu.
  - apply Hone'.
    + apply engine_lawful.
    + discriminate.
    + discriminate.
    + exact Hu.
Defined.

End ProductRuns.

(** ** The operator on well-formed games *)

Lemma Forall2_nth_error_r : forall (A B : Type) (R : A -> B -> Prop)
    (xs : list A) (ys : list B) (i : nat) (y : B),
  Forall2 R xs ys -> nth_error ys i = Some y ->
  exists x, nth_error xs i = Some x /\ R x y.
Proof.
  intros A B R xs ys i y H. revert i.
  induction H as [| a b xs ys Hab _ IH]; intros [| i] Hi; simpl in *;
    try discriminate.
  - inversion Hi; subst. eauto.
  - now apply IH.
Qed.

Lemma mapM_Forall2_nth : forall (B : Type) (R : B -> nat -> Prop)
    (f : nat -> res B) (n k : nat),
  (forall i, (k <= i < k + n)%nat -> exists y, f i = Ok y /\ R y i) ->
  exists ys, mapM f (seq k n) = Ok ys /\ Forall2 R ys (seq k n).
Proof.
  intros B R f n. induction n as [| n IH]; intros k H; simpl.
  - exists []. split; [reflexivity | constructor].
  - destruct (H k) as (y & Hy & HR); [lia |].
    destruct (IH (S k)) as (ys & Hys & Hall); [intros; apply H; lia |].
    exists (y :: ys). rewrite Hy. simpl. rewrite Hys. simpl.
    split; [reflexivity | now constructor].
Qed.

Lemma foldM_invariant : forall (A S : Type) (P : S -> Prop)
    (f : S -> A -> res S) (xs : list A) (s : S),
  P s ->
  (forall s' x, In x xs -> P s' -> exists s'', f s' x = Ok s'' /\ P s'') ->
  exists s', foldM f xs s = Ok s' /\ P s'.
Proof.
  induction xs as [| x xs IH]; intros s Hs H; simpl; [eauto |].
  destruct (H s x (or_introl eq_refl) Hs) as (s1 & H1 & HP1).
  rewrite H1. simpl. apply IH; [assumption |].
  intros s' y Hy. apply H. now right.
Qed.

Section WellFormed.

Context {Sc : Scalar}.

Import CmdUtils Design.

Lemma flatten_ok : forall (A : Type) (zero : A) (negate : A -> A)
    (gs : list (option (tensor A))) (ps : list param) (detach neg : bool),
  grad_entries_ok gs ps ->
  ps <> [] ->
  exists flat,
    flatten_filter_none zero negate gs ps detach neg = Ok flat /\
    length flat = total_numel ps.
Proof.
  intros A zero negate gs ps detach neg Hok Hne.
  unfold flatten_filter_none.
  assert (Hlen : length (concat (filter_none zero gs ps)) = total_numel ps).
  { unfold filter_none. clear Hne.
    induction Hok as [| g p gs ps Hg _ IH]; [reflexivity |].
    simpl. rewrite length_app. f_equal; [| exact IH].
    destruct g; [assumption | apply repeat_length]. }
  assert (Hcat : torch_cat (filter_none zero gs ps)
                 = Ok (concat (filter_none zero gs ps))).
  { destruct Hok; [congruence | reflexivity]. }
  rewrite Hcat. simpl. eexists. split; [reflexivity |].
  destruct neg; [now rewrite length_map | assumption].
Qed.

Variable E : Autograd.
Variable hessian_loss_list : list (node E).
Variable player_list : list player.
Variable player_list_flattened : list vec.
Variable bregman : bregman.

Hypothesis Hlaw : autograd_lawful E.
Hypothesis Hpot : potential_elementwise bregman.
Hypothesis Hlosses : (length player_list <= length hessian_loss_list)%nat.
Hypothesis Hflat : shaped player_list player_list_flattened.
Hypothesis Hparams : Forall (fun pl : player => pl <> []) player_list.
Hypothesis Hsecond : second_pass_defined E hessian_loss_list player_list.

Lemma hvp_ok : forall (loss : node E) (col row : player) (v_j : vec),
  col <> [] -> row <> [] ->
  length v_j = total_numel col ->
  (forall g,
     flatten_filter_none (node_zero E) (node_neg E) (grad_graph E loss col)
       col false false = Ok g ->
     length v_j = length g ->
     exists r, vjp E g row v_j = Ok r) ->
  exists y, hvp E loss col row v_j = Ok y /\ length y = total_numel row.
Proof.
  intros loss col row v_j Hcol Hrow Hv Hpass. unfold hvp.
  destruct (flatten_ok (node_zero E) (node_neg E) false false
              (grad_graph_ok Hlaw loss col) Hcol) as (g & Hg & Hlg).
  rewrite Hg. simpl.
  destruct (Hpass g Hg) as (r & Hr); [congruence |].
  rewrite Hr. simpl.
  exact (flatten_ok 0 opp false false (vjp_ok Hlaw _ _ _ Hr) Hrow).
Qed.

Lemma player_nonempty : forall (i : nat) (pl : player),
  nth_error player_list i = Some pl -> pl <> [].
Proof.
  intros i pl Hi. rewrite Forall_forall in Hparams. apply Hparams.
  eapply nth_error_In; eassumption.
Qed.

Lemma block_product_ok : forall (v : list vec) (transpose : bool) (i j : nat)
    (row col : player),
  shaped player_list v ->
  nth_error player_list i = Some row ->
  nth_error player_list j = Some col ->
  exists t,
    block_product E hessian_loss_list player_list player_list_flattened v
      bregman transpose i j = Ok t /\
    length t = total_numel row.
Proof.
  intros v transpose i j row col Hv Hrow Hcol. unfold block_product, py_index.
  destruct (Forall2_nth_error_r _ Hv Hcol) as (v_j & Hvj & Hlj).
  rewrite Hvj. simpl.
  destruct (Nat.eqb_spec i j) as [Heq | Hneq].
  - subst j. rewrite Hcol in Hrow. inversion Hrow; subst col.
    destruct (Forall2_nth_error_r _ Hflat Hcol) as (x_i & Hxi & Hli).
    rewrite Hxi. simpl.
    destruct (Dxx_vp_len Hpot x_i v_j) as (y & Hy & Hly); [congruence |].
    exists y. split; [assumption | congruence].
  - rewrite Hcol, Hrow. simpl.
    assert (Hk : forall k pl, nth_error player_list k = Some pl ->
                 exists loss, nth_error hessian_loss_list k = Some loss).
    { intros k pl Hk.
      destruct (nth_error hessian_loss_list k) eqn:Hloss; [eauto |].
      apply nth_error_None in Hloss.
      assert (k < length player_list)%nat
        by (apply nth_error_Some; congruence).
      lia. }
    assert (Hloss : exists loss,
               nth_error hessian_loss_list (if transpose then j else i)
               = Some loss)
      by (destruct transpose; eauto).
    destruct Hloss as [loss Hloss]. rewrite Hloss. simpl.
    apply hvp_ok; eauto using player_nonempty.
    intros g Hg Hlg.
    apply (@Hsecond i j row col loss g v_j Hneq Hrow Hcol);
      [destruct transpose; auto | assumption | assumption].
Qed.

Lemma vadd__same_length : forall y t : vec,
  length y = length t ->
  exists y', vadd_ y t = Ok y' /\ length y' = length y.
Proof.
  intros y t H. unfold vadd_. rewrite broadcast2__same_length by assumption.
  eexists. split; [reflexivity | now apply map2_length].
Qed.

(** On a well-formed game the operator returns, and its result has the
    shape of its argument. *)
Lemma avp_ok : forall (v : list vec) (transpose : bool),
  shaped player_list v ->
  exists y,
    avp E hessian_loss_list player_list player_list_flattened v bregman
      transpose = Ok y /\
    shaped player_list y.
Proof.
  intros v transpose Hv.
  rewrite avp_rows by (eapply Forall2_length; eassumption).
  unfold block_rows.
  destruct (@mapM_Forall2_nth vec
              (fun y i => exists row, nth_error player_list i = Some row /\
                                      length y = total_numel row)
              (row_sum v (block_product E hessian_loss_list player_list
                            player_list_flattened v bregman transpose)
                 (length player_list))
              (length player_list) 0%nat) as (ys & Hys & Hall).
  - intros i Hi.
    destruct (nth_error player_list i) as [row |] eqn:Hrow;
      [| apply nth_error_None in Hrow; lia].
    destruct (Forall2_nth_error_r _ Hv Hrow) as (v_i & Hvi & Hli).
    unfold row_sum, py_index. rewrite Hvi. simpl.
    destruct (@foldM_invariant nat vec
                (fun y => length y = total_numel row)
                (fun y j =>
                   t <- block_product E hessian_loss_list player_list
                          player_list_flattened v bregman transpose i j ;;
                   vadd_ y t)
                (seq 0 (length player_list)) (zeros_like v_i))
      as (y & Hy & Hly).
    + now rewrite zeros_like_length.
    + intros y j Hj Hy. apply in_seq in Hj.
      destruct (nth_error player_list j) as [col |] eqn:Hcol;
        [| apply nth_error_None in Hcol; lia].
      destruct (@block_product_ok v transpose i j row col Hv Hrow Hcol)
        as (t & Ht & Hlt).
      rewrite Ht. simpl.
      destruct (vadd__same_length y t) as (y' & Hy' & Hly');
        [congruence |].
      exists y'. split; [assumption | congruence].
    + exists y. split; [assumption | eauto].
  - exists ys. split; [assumption |].
    unfold shaped. clear Hys.
    assert (G : forall (k : nat) (rows : list player) (ys : list vec),
                 (forall i row, nth_error rows i = Some row ->
                                nth_error player_list (k + i) = Some row) ->
                 length rows = length ys ->
                 Forall2 (fun y i => exists row,
                            nth_error player_list i = Some row /\
                            length y = total_numel row)
                         ys (seq k (length rows)) ->
                 Forall2 (fun u pl => length u = total_numel pl) ys rows).
    { intros k rows. revert k.
      induction rows as [| row rows IH]; intros k [| y ys'] Hnth Hlen H;
        simpl in *; try discriminate; constructor.
      - inversion H as [| ? ? ? ? (row' & Hrow' & Hly) _]; subst.
        pose proof (Hnth 0%nat row eq_refl) as Hk.
        rewrite Nat.add_0_r in Hk. rewrite Hk in Hrow'.
        now inversion Hrow'.
      - inversion H; subst. apply IH with (k := S k); [| lia | assumption].
        intros i r Hi. replace (S k + i)%nat with (k + S i)%nat by lia.
        now apply Hnth. }
    apply G with (k := 0%nat); [auto | | assumption].
    apply Forall2_length in Hall. now rewrite length_seq in Hall.
Qed.

End WellFormed.

(** ** The solver on well-formed games *)

Section Shapes.

Context {Sc : Scalar}.

Import CmdUtils Design.

Lemma shaped_same_lengths : forall (players : list player) (us vs : list vec),
  shaped players us -> shaped players vs ->
  Forall2 (fun u w => length u = length w) us vs.
Proof.
  unfold shaped. intros players us vs Hus. revert vs.
  induction Hus as [| u pl us pls Hu _ IH]; intros vs Hvs;
    inversion Hvs; subst; constructor; [congruence | now apply IH].
Qed.

Lemma sum_dots_ok : forall us vs : list vec,
  Forall2 (fun u w => length u = length w) us vs ->
  exists q, sum_dots us vs = Ok q.
Proof.
  intros us vs H. unfold sum_dots. generalize (0 : scalar).
  induction H as [| u w us vs Huw _ IH]; intros acc; simpl; [eauto |].
  unfold dot. rewrite Huw, Nat.eqb_refl. simpl. apply IH.
Qed.

Lemma foreach2_ok : forall (players : list player)
    (op : vec -> vec -> res vec) (us vs : list vec),
  players <> [] ->
  (forall a b, length a = length b ->
               exists c, op a b = Ok c /\ length c = length a) ->
  shaped players us -> shaped players vs ->
  exists ws, foreach2 op us vs = Ok ws /\ shaped players ws.
Proof.
  intros players op us vs Hne Hop Hus Hvs. unfold foreach2.
  destruct us as [| u0 us0] eqn:Hus0;
    [inversion Hus; subst; congruence |].
  rewrite <- Hus0 in *. clear Hus0 Hne.
  rewrite (Forall2_length Hus), (Forall2_length Hvs), Nat.eqb_refl.
  unfold shaped in *. revert vs Hvs.
  induction Hus as [| u pl us pls Hu _ IH]; intros vs Hvs;
    inversion Hvs as [| w ? ws ? Hw Hws]; subst; simpl.
  - exists []. split; [reflexivity | constructor].
  - destruct (Hop u w) as (c & Hc & Hlc); [congruence |].
    destruct (IH ws Hws) as (cs & Hcs & Hshape).
    rewrite Hc. simpl. rewrite Hcs. simpl.
    exists (c :: cs). split; [reflexivity |].
    constructor; [congruence | assumption].
Qed.

Lemma broadcast2__ok : forall (f : scalar -> scalar -> scalar) (a b : vec),
  length a = length b ->
  exists c, broadcast2_ f a b = Ok c /\ length c = length a.
Proof.
  intros f a b H. rewrite broadcast2__same_length by assumption.
  eexists. split; [reflexivity | now apply map2_length].
Qed.

Lemma broadcast2_ok : forall (f : scalar -> scalar -> scalar) (a b : vec),
  length a = length b ->
  exists c, broadcast2 f a b = Ok c /\ length c = length a.
Proof.
  intros f a b H. rewrite broadcast2_same_length by assumption.
  eexists. split; [reflexivity | now apply map2_length].
Qed.

Lemma neg_gradients_ok : forall (E : Autograd) (players : list player)
    (grad_loss_list : list (node E)),
  autograd_lawful E ->
  Forall (fun pl : player => pl <> []) players ->
  (length players <= length grad_loss_list)%nat ->
  exists b, neg_gradients E grad_loss_list players = Ok b /\
            shaped players b.
Proof.
  intros E players gl Hlaw. unfold neg_gradients, shaped, flatten_values.
  revert gl.
  induction players as [| pl pls IH]; intros gl Hne Hlen.
  - exists []. destruct gl; simpl; split; (reflexivity || constructor).
  - destruct gl as [| loss gl]; simpl in Hlen; [lia |].
    inversion Hne as [| ? ? Hpl Hpls]; subst. simpl.
    destruct (flatten_ok 0 opp true true (grad_value_ok Hlaw loss pl) Hpl)
      as (flat & Hfl & Hlf).
    rewrite Hfl. simpl.
    destruct (IH gl Hpls) as (b & Hb & Hshape); [lia |].
    rewrite Hb. simpl. exists (flat :: b).
    split; [reflexivity | now constructor].
Qed.

Lemma shaped_nonempty : forall (players : list player) (vs : list vec),
  players <> [] -> shaped players vs -> exists u us, vs = u :: us.
Proof.
  intros players vs Hne H. inversion H; subst; [congruence | eauto].
Qed.

Lemma torch_div_ok : forall (players : list player) (r : list vec)
    (rdotr pAp : scalar),
  players <> [] -> shaped players r ->
  torch_div r rdotr pAp = Ok (rdotr / pAp).
Proof.
  intros players r rdotr pAp Hne Hr.
  destruct (shaped_nonempty Hne Hr) as (u & us & ->). reflexivity.
Qed.

Lemma zeros_like_shaped : forall (players : list player) (flattened : list vec),
  shaped players flattened -> shaped players (map zeros_like flattened).
Proof.
  unfold shaped. intros players flattened H.
  induction H; simpl; constructor;
    [now rewrite zeros_like_length | assumption].
Qed.

End Shapes.

Section SolverRuns.

Context {Sc : Scalar}.

Import CmdUtils Design.

Variable E : Autograd.
Variable grad_loss_list : list (node E).
Variable hessian_loss_list : list (node E).
Variable player_list : list player.
Variable player_list_flattened : list vec.
Variable bregman : bregman.
Variables tol atol : scalar.

Hypothesis Hlaw : autograd_lawful E.
Hypothesis Hpot : potential_elementwise bregman.
Hypothesis Hgrads : (length player_list <= length grad_loss_list)%nat.
Hypothesis Hlosses : (length player_list <= length hessian_loss_list)%nat.
Hypothesis Hflat : shaped player_list player_list_flattened.
Hypothesis Hparams : Forall (fun pl : player => pl <> []) player_list.
Hypothesis Hplayers : player_list <> [].
Hypothesis Hsecond : second_pass_defined E hessian_loss_list player_list.

Lemma At_A_ok : forall v : list vec,
  shaped player_list v ->
  exists y,
    At_A E hessian_loss_list player_list player_list_flattened bregman v
    = Ok y /\
    shaped player_list y.
Proof.
  intros v Hv. unfold At_A.
  destruct (@avp_ok _ E hessian_loss_list player_list player_list_flattened
              bregman Hlaw Hpot Hlosses Hflat Hparams Hsecond v false Hv)
    as (A_v & HA & HsA).
  rewrite HA. simpl.
  exact (@avp_ok _ E hessian_loss_list player_list player_list_flattened
           bregman Hlaw Hpot Hlosses Hflat Hparams Hsecond A_v true HsA).
Qed.

Lemma cg_setup_ok : forall x0 : option (list vec),
  match x0 with Some g => shaped player_list g | None => True end ->
  exists su,
    cg_setup E grad_loss_list hessian_loss_list player_list
      player_list_flattened bregman tol x0 = Ok su /\
    shaped player_list (su_x su) /\
    shaped player_list (su_r su).
Proof.
  intros x0 Hx0. unfold cg_setup.
  destruct (neg_gradients_ok grad_loss_list Hlaw Hparams Hgrads)
    as (b & Hb & Hsb).
  rewrite Hb. simpl.
  destruct (@avp_ok _ E hessian_loss_list player_list player_list_flattened
              bregman Hlaw Hpot Hlosses Hflat Hparams Hsecond b true Hsb)
    as (r & Hr & Hsr).
  rewrite Hr. simpl.
  destruct (sum_dots_ok (shaped_same_lengths Hsr Hsr)) as (nrm & Hnrm).
  rewrite Hnrm. simpl.
  destruct x0 as [g |].
  - destruct (At_A_ok Hx0) as (z & Hz & Hsz). rewrite Hz. simpl.
    destruct (@foreach2_ok _ player_list (vaxmy_ 1) r z) as (r' & Hr' & Hsr');
      try assumption.
    { intros. now apply broadcast2__ok. }
    unfold foreach_sub_. rewrite Hr'. simpl.
    destruct (sum_dots_ok (shaped_same_lengths Hsr' Hsr')) as (q & Hq).
    rewrite Hq. simpl. eexists. split; [reflexivity |]. simpl. auto.
  - simpl.
    destruct (sum_dots_ok (shaped_same_lengths Hsr Hsr)) as (q & Hq).
    rewrite Hq. simpl. eexists. split; [reflexivity |]. simpl.
    split; [now apply zeros_like_shaped | assumption].
Qed.

Lemma cg_iteration_ok : forall (residual_tol : scalar) (st : cg_state),
  cg_state_shaped player_list st ->
  exists st' brk,
    cg_iteration E hessian_loss_list player_list player_list_flattened
      bregman atol residual_tol st = Ok (st', brk) /\
    cg_state_shaped player_list st'.
Proof.
  intros residual_tol st (Hx & Hr & Hp). unfold cg_iteration.
  destruct (At_A_ok Hp) as (z & Hz & Hsz). rewrite Hz. simpl.
  destruct (sum_dots_ok (shaped_same_lengths Hp Hsz)) as (pAp & HpAp).
  rewrite HpAp. simpl.
  rewrite (torch_div_ok (cg_rdotr st) pAp Hplayers Hr). simpl.
  destruct (@foreach2_ok _ player_list (vaxpy_ (cg_rdotr st / pAp)) (cg_x st) (cg_p st))
    as (x' & Hx' & Hsx'); try assumption.
  { intros. now apply broadcast2__ok. }
  unfold foreach_add_. rewrite Hx'. simpl.
  destruct (@foreach2_ok _ player_list (vaxmy_ (cg_rdotr st / pAp)) (cg_r st) z)
    as (r' & Hr' & Hsr'); try assumption.
  { intros. now apply broadcast2__ok. }
  unfold foreach_sub_. rewrite Hr'. simpl.
  destruct (sum_dots_ok (shaped_same_lengths Hsr' Hsr')) as (q & Hq).
  rewrite Hq. simpl.
  destruct (ltb q atol || ltb q residual_tol).
  - do 2 eexists. split; [reflexivity |]. repeat split; assumption.
  - destruct (@foreach2_ok _ player_list
                (broadcast2 (fun x y => x + q / cg_rdotr st * y)) r' (cg_p st))
      as (p' & Hp' & Hsp'); try assumption.
    { intros. now apply broadcast2_ok. }
    unfold foreach_add. rewrite Hp'. simpl.
    do 2 eexists. split; [reflexivity |]. repeat split; assumption.
Qed.

(** The loop always runs to its end, and leaves the loop variable bound to
    one of its values unless there was none. *)
Lemma cg_loop_ok : forall (residual_tol : scalar) (steps : list nat)
    (st : cg_state) (last : option nat),
  cg_state_shaped player_list st ->
  exists st' last',
    cg_loop E hessian_loss_list player_list player_list_flattened bregman
      atol residual_tol steps st last = Ok (st', last') /\
    cg_state_shaped player_list st' /\
    match steps with
    | [] => last' = last
    | _ => exists i, last' = Some i /\ In i steps
    end.
Proof.
  intros residual_tol steps. induction steps as [| i steps IH];
    intros st last Hst; simpl.
  - eauto.
  - destruct (cg_iteration_ok residual_tol Hst) as (st1 & brk & Hit & Hst1).
    rewrite Hit. simpl. destruct brk.
    + do 2 eexists. split; [reflexivity |]. split; [assumption | eauto].
    + destruct (IH st1 (Some i) Hst1) as (st' & last' & Hloop & Hst' & Hlast).
      exists st', last'. split; [assumption |]. split; [assumption |].
      destruct steps as [| i' steps'].
      * subst last'. eauto.
      * destruct Hlast as (k & Hk & Hin). exists k. split; [assumption |].
        now right.
Qed.

End SolverRuns.

(** ** Early exit and the iteration count *)

Section EarlyExit.

Context {Sc : Scalar}.

Import CmdUtils Design.

Variable E : Autograd.
Variable grad_loss_list : list (node E).
Variable hessian_loss_list : list (node E).
Variable player_list : list player.
Variable player_list_flattened : list vec.
Variable bregman : bregman.
Variables tol atol : scalar.

(** What [cg_setup] computes, step by step. *)
Lemma cg_setup_inv : forall (x0 : option (list vec)) (su : cg_setup_out),
  cg_setup E grad_loss_list hessian_loss_list player_list
    player_list_flattened bregman tol x0 = Ok su ->
  exists b r0 norm_At_b,
    neg_gradients E grad_loss_list player_list = Ok b /\
    avp E hessian_loss_list player_list player_list_flattened b bregman true
    = Ok r0 /\
    sum_dots r0 r0 = Ok norm_At_b /\
    su_residual_tol su = tol * norm_At_b /\
    match x0 with
    | None =>
        su_x su = map zeros_like player_list_flattened /\ su_r su = r0
    | Some g =>
        su_x su = g /\
        exists At_A_x,
          At_A E hessian_loss_list player_list player_list_flattened
            bregman g = Ok At_A_x /\
          foreach_sub_ 1 r0 At_A_x = Ok (su_r su)
    end /\
    sum_dots (su_r su) (su_r su) = Ok (su_rdotr su).
Proof.
  intros x0 su H. unfold cg_setup in H.
  apply bind_Ok in H. destruct H as (b & Hb & H).
  apply bind_Ok in H. destruct H as (r0 & Hr0 & H).
  apply bind_Ok in H. destruct H as (nrm & Hnrm & H).
  apply bind_Ok in H. destruct H as ([x r] & Hxr & H).
  apply bind_Ok in H. destruct H as (rdotr & Hrdotr & H).
  inversion H; subst su; clear H. simpl in *.
  exists b, r0, nrm. repeat (split; [assumption || reflexivity |]).
  split; [| assumption].
  destruct x0 as [g |].
  - apply bind_Ok in Hxr. destruct Hxr as (z & Hz & Hxr).
    apply bind_Ok in Hxr. destruct Hxr as (r' & Hr' & Hxr).
    inversion Hxr; subst. split; [reflexivity |]. eauto.
  - inversion Hxr; subst. split; reflexivity.
Qed.

Lemma early_exit_returns : forall (x0 : option (list vec)) (n_steps : Z)
    (su : cg_setup_out),
  cg_setup E grad_loss_list hessian_loss_list player_list
    player_list_flattened bregman tol x0 = Ok su ->
  early_exit atol su = true ->
  metamatrix_conjugate_gradient E grad_loss_list hessian_loss_list
    player_list player_list_flattened bregman tol atol x0 n_steps
  = Ok (su_x su, 0%Z).
Proof.
  intros x0 n_steps su Hsu Hexit. unfold metamatrix_conjugate_gradient.
  rewrite Hsu. simpl. now rewrite Hexit.
Qed.

Lemma no_early_exit_runs_loop : forall (x0 : option (list vec)) (n_steps : Z)
    (su : cg_setup_out),
  cg_setup E grad_loss_list hessian_loss_list player_list
    player_list_flattened bregman tol x0 = Ok su ->
  early_exit atol su = false ->
  metamatrix_conjugate_gradient E grad_loss_list hessian_loss_list
    player_list player_list_flattened bregman tol atol x0 n_steps
  = (out <- cg_loop E hessian_loss_list player_list player_list_flattened
              bregman atol (su_residual_tol su) (seq 0 (Z.to_nat n_steps))
              (cg_start su) None ;;
     match snd out with
     | None => Err UnboundLocalError
     | Some i => Ok (cg_x (fst out), (Z.of_nat i + 1)%Z)
     end).
Proof.
  intros x0 n_steps su Hsu Hexit. unfold metamatrix_conjugate_gradient.
  rewrite Hsu. simpl. now rewrite Hexit.
Qed.

End EarlyExit.

Section IterationCount.

Context {Sc : Scalar}.

Import CmdUtils Design.


End IterationCount.

Section IterationCountRuns.

Import CmdUtils Design Games.

#[local] Existing Instance binary32.

Lemma duel_second_pass : forall st : Poly.store,
  second_pass_defined (Poly.engine st) duel_losses duel_players.
Proof.
  intros st. apply second_pass_check_sound. reflexivity.
Qed.


(** The duel game solved in two iterations with [n_steps = 5], and the
    same call with [n_steps = 0]. *)
Example duel_runs :
  metamatrix_conjugate_gradient duel_engine duel_losses
    duel_losses duel_players duel_flattened
    (squared_distance 1) default_tol default_tol None 5
  = Ok ([[f32 5]; [f32 (-2)]], 2%Z) /\
  metamatrix_conjugate_gradient duel_engine duel_losses
    duel_losses duel_players duel_flattened
    (squared_distance 1) default_tol default_tol None 0
  = Err UnboundLocalError.
Proof.
  split; reflexivity.
Qed.


End IterationCountRuns.

(** ** The squared residual across iterations *)

Section Residual.

Context {Sc : Scalar}.

Import CmdUtils Design.

Variable E : Autograd.
Variable hessian_loss_list : list (node E).
Variable player_list : list player.
Variable player_list_flattened : list vec.
Variable bregman : bregman.
Variable atol : scalar.

(** The flag of a pass is the test of the squared residual of the state it
    leaves, and a pass that goes on stores that value as [rdotr]. *)
Lemma cg_iteration_test : forall (residual_tol : scalar) (st st' : cg_state)
    (brk : bool),
  cg_iteration E hessian_loss_list player_list player_list_flattened bregman
    atol residual_tol st = Ok (st', brk) ->
  exists q,
    sum_dots (cg_r st') (cg_r st') = Ok q /\
    brk = ltb q atol || ltb q residual_tol /\
    (brk = false -> cg_rdotr st' = q).
Proof.
  intros residual_tol st st' brk H. unfold cg_iteration in H.
  apply bind_Ok in H. destruct H as (z & _ & H).
  apply bind_Ok in H. destruct H as (pAp & _ & H).
  apply bind_Ok in H. destruct H as (alpha & _ & H).
  apply bind_Ok in H. destruct H as (x' & _ & H).
  apply bind_Ok in H. destruct H as (r' & _ & H).
  apply bind_Ok in H. destruct H as (q & Hq & H).
  destruct (ltb q atol || ltb q residual_tol) eqn:Hb.
  - injection H as <- <-. simpl. exists q. rewrite Hb.
    repeat split; [assumption | discriminate].
  - apply bind_Ok in H. destruct H as (p' & _ & H).
    injection H as <- <-. simpl. exists q. rewrite Hb. auto.
Qed.

Lemma cg_residuals_nonempty : forall (residual_tol : scalar) (i : nat)
    (steps : list nat) (st : cg_state) (qs : list scalar),
  cg_residuals E hessian_loss_list player_list player_list_flattened bregman
    atol residual_tol (i :: steps) st = Ok qs ->
  qs <> [].
Proof.
  intros residual_tol i steps st qs H. cbn [cg_residuals] in H.
  apply bind_Ok in H. destruct H as (out & _ & H).
  apply bind_Ok in H. destruct H as (q & _ & H).
  destruct (ltb q atol || ltb q residual_tol).
  - injection H as <-. discriminate.
  - apply bind_Ok in H. destruct H as (qs' & _ & H).
    injection H as <-. discriminate.
Qed.

(** The loop, read through the residuals it computes: every pass but the
    last fails the test, the loop variable is bound to the index of the
    last pass, and when passes are left over the last one passed the
    test. *)
Lemma cg_loop_residuals : forall (residual_tol : scalar) (steps : list nat)
    (st st' : cg_state) (last last' : option nat),
  cg_loop E hessian_loss_list player_list player_list_flattened bregman atol
    residual_tol steps st last = Ok (st', last') ->
  exists qs : list scalar,
    cg_residuals E hessian_loss_list player_list player_list_flattened
      bregman atol residual_tol steps st = Ok qs /\
    (length qs <= length steps)%nat /\
    Forall (fun q => ltb q atol || ltb q residual_tol = false)
      (removelast qs) /\
    ((length qs < length steps)%nat ->
     ltb (List.last qs 0) atol || ltb (List.last qs 0) residual_tol = true) /\
    last' = match qs with
            | [] => last
            | _ :: _ => nth_error steps (length qs - 1)
            end /\
    (qs <> [] -> sum_dots (cg_r st') (cg_r st') = Ok (List.last qs 0)).
Proof.
  intros residual_tol steps.
  induction steps as [| i steps IH]; intros st st' last last' H.
  - injection H as <- <-. exists [].
    split; [reflexivity |]. split; [simpl; lia |].
    split; [constructor |]. split; [simpl; lia |].
    split; [reflexivity | congruence].
  - cbn [cg_loop] in H.
    apply bind_Ok in H. destruct H as ([st1 brk] & Hit & H).
    cbn [fst snd] in H.
    destruct (cg_iteration_test _ _ Hit) as (q & Hq & Hbrk & _).
    cbn [cg_residuals]. rewrite Hit. cbn [bind fst]. rewrite Hq.
    cbn [bind]. rewrite <- Hbrk.
    destruct brk.
    + injection H as <- <-. exists [q].
      split; [reflexivity |]. split; [simpl; lia |].
      split; [constructor |].
      split; [intros _; simpl; now rewrite <- Hbrk |].
      split; [reflexivity | intros _; exact Hq].
    + destruct steps as [| i' steps'].
      * injection H as <- <-. exists [q].
        split; [reflexivity |]. split; [simpl; lia |].
        split; [constructor |]. split; [simpl; lia |].
        split; [reflexivity | intros _; exact Hq].
      * destruct (IH _ _ _ _ H) as (qs & Hqs & Hlen & Hall & Hlast & Hi & Hq').
        pose proof (cg_residuals_nonempty _ _ _ _ Hqs) as Hne.
        rewrite Hqs. cbn [bind]. exists (q :: qs).
        destruct qs as [| q1 qs1]; [congruence |].
        split; [reflexivity |].
        split; [simpl in *; lia |].
        split; [ | split; [ | split]].
        -- change (removelast (q :: q1 :: qs1))
             with (q :: removelast (q1 :: qs1)).
           constructor; auto.
        -- intros Hlt.
           change (List.last (q :: q1 :: qs1) 0)
             with (List.last (q1 :: qs1) 0).
           apply Hlast. simpl in *. lia.
        -- rewrite Hi. simpl. now rewrite Nat.sub_0_r.
        -- intros _.
           change (List.last (q :: q1 :: qs1) 0)
             with (List.last (q1 :: qs1) 0).
           apply Hq'. discriminate.
Qed.

End Residual.

Section StoppingRule.

Context {Sc : Scalar}.

Import CmdUtils Design.

(** C4, amended. The squared residual [rdotr] need not decrease from one
    iteration to the next (in the duel game it grows from [1] to [4]).
    What the loop guarantees is its stopping rule: when the solver does not
    exit early and returns the count [k], its loop has made [k] passes,
    with [1 <= k <= n_steps]; the squared residual recomputed in each pass
    but the last was below neither [atol] nor [residual_tol]; and when
    [k < n_steps] the one of the last pass was below one of them. *)
Theorem cg_loop_stops_on_small_residual : forall (E : Autograd)
    (gl hl : list (node E)) (pl : list player) (pf : list vec) (B : bregman)
    (tol atol : scalar) (x0 : option (list vec)) (n_steps : Z)
    (su : cg_setup_out) (x : list vec) (k : Z),
  cg_setup E gl hl pl pf B tol x0 = Ok su ->
  early_exit atol su = false ->
  metamatrix_conjugate_gradient E gl hl pl pf B tol atol x0 n_steps
  = Ok (x, k) ->
  exists qs : list scalar,
    cg_residuals E hl pl pf B atol (su_residual_tol su)
      (seq 0 (Z.to_nat n_steps)) (cg_start su) = Ok qs /\
    k = Z.of_nat (length qs) /\
    (1 <= k <= n_steps)%Z /\
    Forall (fun q => ltb q atol || ltb q (su_residual_tol su) = false)
      (removelast qs) /\
    ((k < n_steps)%Z ->
     ltb (List.last qs 0) atol || ltb (List.last qs 0) (su_residual_tol su)
     = true).
Proof.
  intros E gl hl pl pf B tol atol x0 n_steps su x k Hsu Hexit Hrun.
  rewrite (@no_early_exit_runs_loop _ E gl hl pl pf B tol atol x0 n_steps su
             Hsu Hexit) in Hrun.
  apply bind_Ok in Hrun. destruct Hrun as ([st' last'] & Hloop & Hrun).
  cbn [fst snd] in Hrun.
  destruct (cg_loop_residuals _ _ _ _ _ _ _ _ _ _ Hloop)
    as (qs & Hqs & Hlen & Hall & Hlast & Hi & _).
  rewrite length_seq in Hlen, Hlast.
  exists qs. split; [assumption |].
  destruct qs as [| q1 qs1].
  - subst last'. discriminate.
  - subst last'.
    destruct (nth_error (seq 0 (Z.to_nat n_steps)) (length (q1 :: qs1) - 1))
      as [i |] eqn:Hnth; [| discriminate].
    injection Hrun as <- <-.
    cbn [length] in *.
    assert (Hi : i = length qs1).
    { pose proof (nth_error_nth _ _ 0%nat Hnth) as Hn.
      rewrite seq_nth in Hn by lia. lia. }
    split; [lia |].
    split; [lia |].
    split; [assumption |].
    intros Hk. apply Hlast. lia.
Qed.

End StoppingRule.

Section ResidualRuns.

Import CmdUtils Design Games.

#[local] Existing Instance binary32.

(** C4 as stated fails.  In the duel game the solver does not exit early,
    its first iteration does not reach the thresholds, and the joint
    squared residual grows from [1] to [4]. *)
Lemma cg_residual_can_grow :
  cg_setup duel_engine duel_losses duel_losses duel_players
    duel_flattened (squared_distance 1) default_tol None = Ok duel_setup /\
  early_exit default_tol duel_setup = false /\
  cg_iteration duel_engine duel_losses duel_players duel_flattened
    (squared_distance 1) default_tol (su_residual_tol duel_setup)
    (cg_start duel_setup)
  = Ok (duel_first, false) /\
  cg_rdotr (cg_start duel_setup) = f32 1 /\
  cg_rdotr duel_first = f32 4 /\
  ltb (cg_rdotr (cg_start duel_setup)) (cg_rdotr duel_first) = true.
Proof.
  split; [reflexivity |].
  split; [reflexivity |].
  split; [reflexivity |].
  split; [reflexivity |].
  split; reflexivity.
Qed.

Lemma cg_loop_stops_on_small_residual_witness :
  exists qs : list scalar,
    cg_residuals duel_engine duel_losses duel_players duel_flattened
      (squared_distance 1) default_tol (su_residual_tol duel_setup)
      (seq 0 (Z.to_nat 5)) (cg_start duel_setup) = Ok qs /\
    2%Z = Z.of_nat (length qs) /\
    (1 <= 2 <= 5)%Z /\
    Forall (fun q => ltb q default_tol
                     || ltb q (su_residual_tol duel_setup) = false)
      (removelast qs) /\
    ((2 < 5)%Z ->
     ltb (List.last qs 0) default_tol
     || ltb (List.last qs 0) (su_residual_tol duel_setup) = true).
Proof.
  apply (@cg_loop_stops_on_small_residual binary32 duel_engine duel_losses
           duel_losses duel_players duel_flattened (squared_distance 1)
           default_tol default_tol None 5 duel_setup
           [[f32 5]; [f32 (-2)]] 2).
  - reflexivity.
  - reflexivity.
  - reflexivity.
Defined.

End ResidualRuns.

(** ** The early exit and warm starts *)

Section WarmStartClaim.

Context {Sc : Scalar}.

Import CmdUtils Design.

(** C3, amended. When the squared norm of the initial residual ([Mt b],
    minus [Mt M x0] for a warm start [x0]) is below [tol * |Mt b|^2] or
    below [atol], the solver returns the guess it was given (the zero
    vectors when it was given none) and the count [0], whatever [n_steps]
    is.  The test is made on the residual recomputed from the guess, not
    on the one the loop of an earlier run carried. *)
Theorem early_exit_on_small_residual :
  forall (E : Autograd) (grad_loss_list hessian_loss_list : list (node E))
         (player_list : list player) (player_list_flattened : list vec)
         (bregman : bregman) (tol atol : scalar) (x0 : option (list vec))
         (n_steps : Z) (b r0 r : list vec) (norm_At_b rdotr : scalar),
    neg_gradients E grad_loss_list player_list = Ok b ->
    avp E hessian_loss_list player_list player_list_flattened b bregman
      true = Ok r0 ->
    sum_dots r0 r0 = Ok norm_At_b ->
    match x0 with
    | None => r = r0
    | Some g =>
        exists At_A_x,
          At_A E hessian_loss_list player_list player_list_flattened
            bregman g = Ok At_A_x /\
          foreach_sub_ 1 r0 At_A_x = Ok r
    end ->
    sum_dots r r = Ok rdotr ->
    ltb rdotr (tol * norm_At_b) = true \/ ltb rdotr atol = true ->
    metamatrix_conjugate_gradient E grad_loss_list hessian_loss_list
      player_list player_list_flattened bregman tol atol x0 n_steps
    = Ok (match x0 with
          | Some g => g
          | None => map zeros_like player_list_flattened
          end, 0%Z).
Proof.
  intros E gl hl pl pf B tol atol x0 n_steps b r0 r nrm rdotr
         Hb Hr0 Hnrm Hr Hrdotr Hsmall.
  assert (Hsetup : cg_setup E gl hl pl pf B tol x0
                   = Ok (mkSetup
                           (match x0 with
                            | Some g => g
                            | None => map zeros_like pf
                            end) r (tol * nrm) rdotr)).
  { unfold cg_setup. rewrite Hb. simpl. rewrite Hr0. simpl.
    rewrite Hnrm. simpl. destruct x0 as [g |].
    - destruct Hr as (z & Hz & Hsub). rewrite Hz. simpl.
      rewrite Hsub. simpl. rewrite Hrdotr. reflexivity.
    - subst r. simpl. rewrite Hrdotr. reflexivity. }
  rewrite (@early_exit_returns _ E gl hl pl pf B tol atol x0 n_steps _
             Hsetup); [reflexivity |].
  unfold early_exit. simpl. apply orb_true_iff. exact Hsmall.
Qed.

End WarmStartClaim.

Section WarmStartRuns.

Import CmdUtils Design Games.

#[local] Existing Instance binary32.

Lemma early_exit_on_small_residual_witness :
  metamatrix_conjugate_gradient mono_engine [mono_loss] [mono_loss]
    [mono_player] [[0]] (squared_distance 1) default_tol default_tol
    (Some [[f32 (-3)]]) 5
  = Ok ([[f32 (-3)]], 0%Z).
Proof.
  apply (@early_exit_on_small_residual binary32)
    with (b := [[f32 (-3)]]) (r0 := [[f32 (-3)]]) (r := [[0]])
         (norm_At_b := f32 9) (rdotr := 0).
  - reflexivity.
  - reflexivity.
  - reflexivity.
  - exists [[f32 (-3)]]. split; reflexivity.
  - reflexivity.
  - left. reflexivity.
Defined.

(** C3 as stated fails in its last part.  One player minimising
    [-3000000 * x] under [squared_distance(7)], with [tol = 0] and
    [atol = 1e-6].  Started cold, the solver does not exit early, leaves
    its loop after one pass with the squared residual [0], below [atol],
    and returns [x1 = 428571.40625] with the count [1].  Called again on
    the unchanged game with [x1] as warm start, it recomputes the residual
    [2] and its square [4], does not exit early, and makes one more pass:
    the count is [1], not [0]. *)
Lemma converged_warm_start_iterates_again :
  let B := squared_distance (f32 7) in
  let x1 := [[f32_ratio 13714285 32]] in
  let x2 := [[f32_ratio 13714286 32]] in
  let cold := mkSetup [[0]] [[f32 21000000]] 0 (f32 440999994195968) in
  let warm := mkSetup x1 [[f32 2]] 0 (f32 4) in
  let solve :=
    metamatrix_conjugate_gradient mono_engine [steep_loss] [steep_loss]
      [mono_player] [[0]] B 0 default_tol in
  (cg_setup mono_engine [steep_loss] [steep_loss] [mono_player] [[0]] B 0
     None = Ok cold /\
   early_exit default_tol cold = false /\
   cg_residuals mono_engine [steep_loss] [mono_player] [[0]] B default_tol
     (su_residual_tol cold) (seq 0 5) (cg_start cold) = Ok [0] /\
   ltb 0 default_tol = true /\
   solve None 5%Z = Ok (x1, 1%Z)) /\
  (cg_setup mono_engine [steep_loss] [steep_loss] [mono_player] [[0]] B 0
     (Some x1) = Ok warm /\
   early_exit default_tol warm = false /\
   solve (Some x1) 5%Z = Ok (x2, 1%Z)).
Proof.
  repeat split; reflexivity.
Qed.

End WarmStartRuns.

(** * Further properties of the code *)

(** ** [exp_map] pairs its lists with [zip] *)

Lemma combine_surplus_r : forall (A B : Type) (xs : list A) (ys more : list B),
  (length xs <= length ys)%nat -> combine xs (ys ++ more) = combine xs ys.
Proof.
  induction xs as [| x xs IH]; intros [| y ys] more Hle; simpl in *;
    try reflexivity; try lia.
  f_equal. apply IH. lia.
Qed.

Lemma combine_surplus_l : forall (A B : Type) (xs more : list A) (ys : list B),
  (length ys <= length xs)%nat -> combine (xs ++ more) ys = combine xs ys.
Proof.
  induction xs as [| x xs IH]; intros more [| y ys] Hle; simpl in *;
    try reflexivity; try lia.
  - now destruct more.
  - f_equal. apply IH. lia.
Qed.

Section ExpMapZip.

Context {Sc : Scalar}.

Import CmdUtils Design.

(** X5. [exp_map] pairs the two lists with [zip]: whenever it returns, it
    returns one vector per pair, and vectors beyond the shorter list are
    never read, so appending to the longer list changes nothing. *)
Theorem exp_map_zip : forall (B : bregman) (params duals : list vec)
    (in_place : bool),
  (forall mapped, exp_map params duals B in_place = Ok mapped ->
                  length mapped = Nat.min (length params) (length duals)) /\
  (forall more, (length params <= length duals)%nat ->
                exp_map params (duals ++ more) B in_place
                = exp_map params duals B in_place) /\
  (forall more, (length duals <= length params)%nat ->
                exp_map (params ++ more) duals B in_place
                = exp_map params duals B in_place).
Proof.
  intros B params duals in_place. unfold exp_map. split; [| split].
  - intros mapped H. apply mapM_length in H.
    now rewrite H, length_combine.
  - intros more Hle. now rewrite combine_surplus_r.
  - intros more Hle. now rewrite combine_surplus_l.
Qed.

End ExpMapZip.

Section ExpMapZipRuns.

Import CmdUtils Design Games.

#[local] Existing Instance binary32.

Lemma exp_map_zip_witness :
  exp_map [[f32 1]] ([[f32 2]] ++ [[f32 3; f32 4]]) (squared_distance 1) true
  = exp_map [[f32 1]] [[f32 2]] (squared_distance 1) true.
Proof.
  destruct (@exp_map_zip binary32 (squared_distance 1) [[f32 1]] [[f32 2]] true)
    as (_ & H & _).
  apply H. simpl. lia.
Defined.

End ExpMapZipRuns.

(** ** Flattening, the write-back and [zero_grad] *)

Section FlattenFacts.

Context {Sc : Scalar}.

Import CmdUtils Design.

(** X6. [flatten_filter_none] raises exactly when one of its two lists is
    empty: [zip] then yields nothing and [torch.cat] of an empty list fails.
    It raises nothing else, whatever the shapes of the gradients are. *)
Theorem flatten_filter_none_raises_iff_empty :
  forall (A : Type) (zero : A) (negate : A -> A)
         (gs : list (option (tensor A))) (ps : list param)
         (detach neg : bool),
    (flatten_filter_none zero negate gs ps detach neg
     = Err (RuntimeError EmptyCat) <-> gs = [] \/ ps = []) /\
    (forall e, flatten_filter_none zero negate gs ps detach neg = Err e ->
               e = RuntimeError EmptyCat).
Proof.
  intros A zero negate gs ps detach neg.
  unfold flatten_filter_none, filter_none.
  destruct gs as [| g gs]; [| destruct ps as [| p ps]]; simpl.
  - split; [split; auto | intros e H; now inversion H].
  - split; [split; auto | intros e H; now inversion H].
  - split.
    + split; [discriminate | intros [H | H]; discriminate].
    + intros e H. discriminate.
Qed.

(** X7. [flatten_filter_none] pairs gradients and parameters with [zip]:
    gradients without a parameter and parameters without a gradient are
    never read. *)
Theorem flatten_filter_none_zip :
  forall (A : Type) (zero : A) (negate : A -> A)
         (gs more_gs : list (option (tensor A))) (ps more_ps : list param)
         (detach neg : bool),
    ((length gs <= length ps)%nat ->
     flatten_filter_none zero negate gs (ps ++ more_ps) detach neg
     = flatten_filter_none zero negate gs ps detach neg) /\
    ((length ps <= length gs)%nat ->
     flatten_filter_none zero negate (gs ++ more_gs) ps detach neg
     = flatten_filter_none zero negate gs ps detach neg).
Proof.
  intros A zero negate gs more_gs ps more_ps detach neg.
  unfold flatten_filter_none, filter_none. split; intros Hle.
  - now rewrite combine_surplus_r.
  - now rewrite combine_surplus_l.
Qed.

End FlattenFacts.

Section FlattenFactsRuns.

Import CmdUtils Design Games.

#[local] Existing Instance binary32.

Lemma flatten_filter_none_zip_witness :
  flatten_values ([None] ++ [Some (as_tensor c_param)])
    [w_param] false false
  = flatten_values [None] [w_param] false false.
Proof.
  destruct (@flatten_filter_none_zip binary32 scalar 0 opp [None]
              [Some (as_tensor c_param)] [w_param] [] false false)
    as [_ H].
  apply H. simpl. lia.
Defined.

End FlattenFactsRuns.

Section WriteBackFacts.

Context {Sc : Scalar}.

Import CmdUtils Design.

Lemma write_back_structure : forall (pl : player) (mapped : vec) (idx : nat),
  map pid (fst (write_back pl mapped idx)) = map pid pl /\
  map pshape (fst (write_back pl mapped idx)) = map pshape pl.
Proof.
  induction pl as [| p pl IH]; intros mapped idx; simpl; [auto |].
  destruct (reshape (slice mapped idx (idx + numel p)) (pshape p)) as [t | e];
    simpl; [| auto].
  destruct (IH mapped (idx + numel p)%nat) as [H1 H2].
  now rewrite H1, H2.
Qed.

Lemma write_back_wf : forall (pl : player) (mapped : vec) (idx : nat),
  (idx + total_numel pl <= length mapped)%nat ->
  Forall param_wf (fst (write_back pl mapped idx)).
Proof.
  induction pl as [| p pl IH]; intros mapped idx Hle; simpl in *.
  - constructor.
  - rewrite reshape_slice_fit by lia. simpl. constructor.
    + unfold param_wf, numel. simpl. rewrite length_slice.
      fold (numel p). lia.
    + apply IH. lia.
Qed.

Lemma slice_all : forall (A : Type) (v : list A), slice v 0 (0 + length v) = v.
Proof.
  intros A v. unfold slice. simpl. rewrite Nat.sub_0_r. apply firstn_all.
Qed.

(** X8. The write-back loop of [step] never changes the identity or the
    shape of a tensor, on any input and also when it stops with an
    exception: only entries are overwritten. *)
Theorem write_back_all_keeps_structure : forall (players : list player)
    (mapped_list : list vec),
  Forall2 (fun pl' pl => map pid pl' = map pid pl /\
                         map pshape pl' = map pshape pl)
          (fst (write_back_all players mapped_list)) players.
Proof.
  assert (Hrefl : forall players : list player,
            Forall2 (fun pl' pl : player => map pid pl' = map pid pl /\
                                   map pshape pl' = map pshape pl)
                    players players).
  { induction players; constructor; auto. }
  induction players as [| pl players IH]; intros [| mapped mapped_list];
    simpl; try apply Hrefl.
  destruct (write_back pl mapped 0) as [pl' [e |]] eqn:Hwb; simpl.
  - constructor; [| apply Hrefl].
    replace pl' with (fst (write_back pl mapped 0)) by now rewrite Hwb.
    apply write_back_structure.
  - constructor; [| apply IH].
    replace pl' with (fst (write_back pl mapped 0)) by now rewrite Hwb.
    apply write_back_structure.
Qed.

Lemma write_back_exact : forall (pl : player) (mapped : vec),
  length mapped = total_numel pl ->
  exists pl' : player,
    write_back pl mapped 0 = (pl', None) /\
    Forall param_wf pl' /\
    map pid pl' = map pid pl /\
    map pshape pl' = map pshape pl /\
    concat (map pdata pl') = mapped.
Proof.
  intros pl mapped Hlen.
  assert (Hle : (0 + total_numel pl <= length mapped)%nat) by (simpl; lia).
  destruct (write_back_enough pl mapped 0 Hle) as (Hnone & Hshape & Hdata).
  pose proof (write_back_wf pl mapped 0 Hle) as Hwf.
  destruct (write_back_structure pl mapped 0) as [Hid _].
  destruct (write_back pl mapped 0) as [pl' e] eqn:Hwb. simpl in *.
  subst e. exists pl'. repeat split; try assumption.
  rewrite Hdata, <- Hlen. apply slice_all.
Qed.

Lemma same_ids_nonempty : forall pl pl' : player,
  map pid pl' = map pid pl -> pl <> [] -> pl' <> [].
Proof.
  intros pl pl' Hid Hne ->. destruct pl; [congruence | discriminate].
Qed.

(** X9. Writing a vector of exactly the player's size back and flattening
    the player again returns the vector: the write-back succeeds, leaves
    every tensor with as many entries as its shape counts, and is undone by
    [flatten_filter_none(player, player)]. *)
Theorem write_back_flatten_round_trip : forall (pl : player) (mapped : vec),
  pl <> [] ->
  length mapped = total_numel pl ->
  exists pl' : player,
    write_back pl mapped 0 = (pl', None) /\
    Forall param_wf pl' /\
    flatten_player pl' = Ok mapped.
Proof.
  intros pl mapped Hne Hlen.
  destruct (write_back_exact pl mapped Hlen)
    as (pl' & Hwb & Hwf & Hid & _ & Hdata).
  exists pl'. split; [assumption |]. split; [assumption |].
  rewrite flatten_player_Ok by (eapply same_ids_nonempty; eassumption).
  now rewrite Hdata.
Qed.

Lemma write_back_all_fits : forall (players : list player)
    (mapped_list : list vec),
  Forall (fun pl : player => pl <> []) players ->
  shaped players mapped_list ->
  exists players',
    write_back_all players mapped_list = (players', None) /\
    Forall (Forall param_wf) players' /\
    Forall (fun pl : player => pl <> []) players' /\
    Forall2 (fun pl' pl : player => map pid pl' = map pid pl /\
                                    map pshape pl' = map pshape pl)
            players' players /\
    mapM flatten_player players' = Ok mapped_list.
Proof.
  intros players mapped_list Hne Hsh. unfold shaped in Hsh.
  induction Hsh as [| mapped pl mapped_list players Hlen Hsh IH]; simpl.
  - exists []. repeat split; constructor.
  - inversion Hne as [| ? ? Hpl Hne']; subst.
    destruct (write_back_exact pl mapped Hlen)
      as (pl' & Hwb & Hwf & Hid & Hshape & Hdata).
    pose proof (same_ids_nonempty Hid Hpl) as Hpl'.
    destruct (IH Hne') as (players' & Hall & Hwfs & Hnes & Hst & Hflats).
    rewrite Hwb, Hall. simpl.
    exists (pl' :: players'). split; [reflexivity |].
    split; [now constructor |].
    split; [now constructor |].
    split; [now constructor |].
    cbn [mapM]. now rewrite (flatten_player_Ok Hpl'), Hdata, Hflats.
Qed.

End WriteBackFacts.

Section WriteBackFactsRuns.

Import CmdUtils Design Games.

#[local] Existing Instance binary32.

Lemma write_back_flatten_round_trip_witness :
  exists pl' : player,
    write_back solo_player
      [f32 7; f32 6; f32 5; f32 4; f32 3; f32 2; f32 1] 0 = (pl', None) /\
    Forall param_wf pl' /\
    flatten_player pl' = Ok [f32 7; f32 6; f32 5; f32 4; f32 3; f32 2; f32 1].
Proof.
  apply (@write_back_flatten_round_trip binary32); [discriminate | reflexivity].
Defined.

End WriteBackFactsRuns.

Section WriteBackStops.

Context {Sc : Scalar}.

Import CmdUtils Design.

(** X10. The write-back loop of [step] stops at the first player whose
    vector is too short: players before it hold their new entries, the
    failing player is overwritten up to the failing tensor, and every later
    player keeps the entries it had. *)
Theorem write_back_all_stops_at_first_exception :
  forall (pre post : list player) (pl : player) (mpre mpost : list vec)
         (m : vec),
    Forall2 (fun (p : player) (v : vec) => (total_numel p <= length v)%nat)
            pre mpre ->
    (length m < total_numel pl)%nat ->
    write_back_all (pre ++ pl :: post) (mpre ++ m :: mpost)
    = (fst (write_back_all pre mpre) ++ fst (write_back pl m 0) :: post,
       Some (RuntimeError InvalidShape)).
Proof.
  intros pre post pl mpre mpost m Hpre Hshort.
  induction Hpre as [| p v pre mpre Hfit Hpre IH]; simpl.
  - destruct (@write_back_short _ pl m 0) as (k & _ & _ & Hwb);
      [lia | simpl; lia |].
    rewrite Hwb. reflexivity.
  - destruct (@write_back_enough _ p v 0) as (Hnone & _); [simpl; lia |].
    destruct (write_back p v 0) as [p' e]. simpl in Hnone. subst e.
    rewrite IH. reflexivity.
Qed.

End WriteBackStops.

Section WriteBackStopsRuns.

Import CmdUtils Design Games.

#[local] Existing Instance binary32.

Lemma write_back_all_stops_at_first_exception_witness :
  write_back_all ([[c_param]] ++ [w_param] :: [[x_param]])
                 ([[f32 1; f32 2; f32 3]] ++ [f32 4] :: [[f32 5]])
  = (fst (write_back_all [[c_param]] [[f32 1; f32 2; f32 3]])
     ++ fst (write_back [w_param] [f32 4] 0) :: [[x_param]],
     Some (RuntimeError InvalidShape)).
Proof.
  apply (@write_back_all_stops_at_first_exception binary32).
  - repeat constructor.
  - simpl. lia.
Defined.

End WriteBackStopsRuns.

Section ZeroGrad.

Context {Sc : Scalar}.

Import CmdUtils Design.

Lemma filter_none_zeroed : forall (gs : list (option (tensor scalar)))
    (ps : list param),
  grad_entries_ok gs ps ->
  filter_none 0 (zero_grad gs) ps
  = filter_none 0 (map (fun _ => None) ps) ps.
Proof.
  intros gs ps H. unfold filter_none, zero_grad.
  induction H as [| g p gs ps Hg _ IH]; simpl; [reflexivity |].
  rewrite IH. f_equal.
  destruct g as [t |]; simpl; [| reflexivity].
  unfold zeros_like, zeros. now rewrite Hg.
Qed.

(** X11. [zero_grad] keeps which gradients are missing and the shape of the
    others, is idempotent, and makes a gradient list flatten to what a list
    of missing gradients flattens to: the zero vector of the parameters'
    size. *)
Theorem zero_grad_flattens_to_zero : forall (gs : list (option (tensor scalar)))
    (ps : list param) (detach neg : bool),
  grad_entries_ok gs ps ->
  grad_entries_ok (zero_grad gs) ps /\
  map (option_map (@tshape scalar)) (zero_grad gs) = map (option_map (@tshape scalar)) gs /\
  zero_grad (zero_grad gs) = zero_grad gs /\
  flatten_values (zero_grad gs) ps detach neg
  = flatten_values (map (fun _ => None) ps) ps detach neg /\
  (ps <> [] ->
   flatten_values (zero_grad gs) ps detach false = Ok (zeros (total_numel ps))).
Proof.
  intros gs ps detach neg H.
  split; [| split; [| split; [| split]]].
  - unfold grad_entries_ok, zero_grad in *.
    induction H as [| g p gs ps Hg _ IH]; simpl; constructor; try assumption.
    destruct g as [t |]; simpl; [| exact I].
    now rewrite zeros_like_length.
  - unfold zero_grad. rewrite map_map. apply map_ext.
    intros [t |]; reflexivity.
  - unfold zero_grad. rewrite map_map. apply map_ext.
    intros [t |]; simpl; [| reflexivity].
    unfold zeros_like at 1. now rewrite zeros_like_length.
  - unfold flatten_values, flatten_filter_none.
    now rewrite filter_none_zeroed.
  - intros Hne. unfold flatten_values, flatten_filter_none.
    rewrite filter_none_zeroed by assumption.
    unfold filter_none.
    assert (Hcat : forall qs : list param,
              concat (map (fun gp : option (tensor scalar) * param =>
                             match fst gp with
                             | None => repeat 0 (numel (snd gp))
                             | Some grad => tdata grad
                             end)
                          (combine (map (fun _ => None) qs) qs))
              = zeros (total_numel qs)).
    { induction qs as [| q qs IHq]; simpl; [reflexivity |].
      rewrite IHq. unfold zeros. now rewrite repeat_app. }
    destruct ps as [| p ps]; [congruence |].
    unfold torch_cat.
    change (combine (map (fun _ => None) (p :: ps)) (p :: ps))
      with ((@None (tensor scalar), p) :: combine (map (fun _ => None) ps) ps).
    cbn [map bind]. f_equal.
    exact (Hcat (p :: ps)).
Qed.

End ZeroGrad.

Section ZeroGradRuns.

Import CmdUtils Design Games.

#[local] Existing Instance binary32.

Lemma zero_grad_flattens_to_zero_witness :
  let gs := [Some (as_tensor w_param); None] in
  grad_entries_ok (zero_grad gs) solo_player /\
  map (option_map (@tshape scalar)) (zero_grad gs) = map (option_map (@tshape scalar)) gs /\
  zero_grad (zero_grad gs) = zero_grad gs /\
  flatten_values (zero_grad gs) solo_player true false
  = flatten_values (map (fun _ => None) solo_player) solo_player
      true false /\
  (solo_player <> [] ->
   flatten_values (zero_grad gs) solo_player true false
   = Ok (zeros (total_numel solo_player))).
Proof.
  apply (@zero_grad_flattens_to_zero binary32).
  repeat constructor.
Defined.

End ZeroGradRuns.

(** ** The operator on arbitrary inputs *)

Section OperatorSizes.

Context {Sc : Scalar}.

Import CmdUtils Design.

Lemma foldM_preserves : forall (A S : Type) (P : S -> Prop)
    (f : S -> A -> res S) (xs : list A),
  (forall s x s', P s -> f s x = Ok s' -> P s') ->
  forall s s', P s -> foldM f xs s = Ok s' -> P s'.
Proof.
  intros A S P f xs Hstep.
  induction xs as [| x xs IH]; intros s s' Hs H; simpl in H.
  - now inversion H; subst.
  - apply bind_Ok in H. destruct H as (s1 & H1 & H).
    eapply IH; [| exact H]. eapply Hstep; eassumption.
Qed.

Lemma broadcast2__length : forall (f : scalar -> scalar -> scalar) (a b c : vec),
  broadcast2_ f a b = Ok c -> length c = length a.
Proof.
  intros f a b c H. unfold broadcast2_ in H.
  destruct (Nat.eqb_spec (length a) (length b)) as [Heq | Hneq].
  - inversion H; subst. now apply map2_length.
  - destruct b as [| y [| y' b']]; try discriminate.
    inversion H; subst. apply length_map.
Qed.

Lemma list_set_sizes : forall (prod_list v : list vec) (i : nat)
    (block block' : vec),
  Forall2 (fun b u : vec => length b = length u) prod_list v ->
  nth_error prod_list i = Some block ->
  length block' = length block ->
  Forall2 (fun b u : vec => length b = length u) (list_set prod_list i block') v.
Proof.
  intros prod_list v i block block' H. revert i.
  induction H as [| b u prod_list v Hb H IH]; intros [| i] Hnth Hlen;
    simpl in *; try discriminate.
  - inversion Hnth; subst. constructor; [congruence | assumption].
  - constructor; [assumption | now apply IH].
Qed.

Lemma iadd_at_sizes : forall (prod_list prod_list' v : list vec) (i : nat)
    (rhs : res vec),
  Forall2 (fun b u : vec => length b = length u) prod_list v ->
  iadd_at prod_list i rhs = Ok prod_list' ->
  Forall2 (fun b u : vec => length b = length u) prod_list' v.
Proof.
  intros prod_list prod_list' v i rhs Hsz H. unfold iadd_at in H.
  apply bind_Ok in H. destruct H as (block & Hblock & H).
  apply bind_Ok in H. destruct H as (y & _ & H).
  apply bind_Ok in H. destruct H as (block' & Hadd & H).
  inversion H; subst. unfold py_index in Hblock.
  destruct (nth_error prod_list i) as [b |] eqn:Hnth; [| discriminate].
  inversion Hblock; subst.
  eapply list_set_sizes; [eassumption | eassumption |].
  eapply broadcast2__length. exact Hadd.
Qed.

Lemma zeros_like_sizes : forall v : list vec,
  Forall2 (fun b u : vec => length b = length u) (map zeros_like v) v.
Proof.
  induction v as [| u v IH]; simpl; constructor; [| assumption].
  apply zeros_like_length.
Qed.

(** X12. Whenever [avp] or [atvp] returns, on any input, its result holds
    one block per input vector, of the size of that vector: the in-place
    additions never resize a block. *)
Theorem operator_keeps_block_sizes : forall (E : Autograd)
    (hessian_loss_list : list (node E)) (player_list : list player)
    (player_list_flattened v : list vec) (bregman : bregman),
  (forall (transpose : bool) (y : list vec),
     avp E hessian_loss_list player_list player_list_flattened v bregman
       transpose = Ok y ->
     Forall2 (fun b u : vec => length b = length u) y v) /\
  (forall y : list vec,
     atvp E hessian_loss_list player_list player_list_flattened v bregman
     = Ok y ->
     Forall2 (fun b u : vec => length b = length u) y v).
Proof.
  intros E hl pl pf v B.
  set (P := fun s : list vec =>
              Forall2 (fun b u : vec => length b = length u) s v).
  split.
  - intros transpose y H. unfold avp in H.
    refine (@foldM_preserves _ _ P _ _ _ _ _ (zeros_like_sizes v) H).
    intros s irow s' Hs Hin.
    refine (@foldM_preserves _ _ P _ _ _ _ _ Hs Hin).
    intros t jcv t' Ht Hcell. unfold avp_cell in Hcell.
    destruct (fst irow =? fst jcv).
    + eapply iadd_at_sizes; eassumption.
    + apply bind_Ok in Hcell. destruct Hcell as (loss & _ & Hcell).
      apply bind_Ok in Hcell. destruct Hcell as (h & _ & Hcell).
      eapply iadd_at_sizes; eassumption.
  - intros y H. unfold atvp in H.
    apply bind_Ok in H. destruct H as (col_grads & _ & H).
    refine (@foldM_preserves _ _ P _ _ _ _ _ (zeros_like_sizes v) H).
    intros s irow s' Hs Hin.
    refine (@foldM_preserves _ _ P _ _ _ _ _ Hs Hin).
    intros t jv t' Ht Hcell. unfold atvp_cell in Hcell.
    destruct (fst irow =? fst jv).
    + eapply iadd_at_sizes; eassumption.
    + apply bind_Ok in Hcell. destruct Hcell as (g & _ & Hcell).
      apply bind_Ok in Hcell. destruct Hcell as (h & _ & Hcell).
      apply bind_Ok in Hcell. destruct Hcell as (h' & _ & Hcell).
      eapply iadd_at_sizes; eassumption.
Qed.

Lemma foldM_skip : forall (A S : Type) (f : S -> A -> res S) (xs : list A)
    (s : S),
  (forall s' x, f s' x = Ok s') -> foldM f xs s = Ok s.
Proof.
  induction xs as [| x xs IH]; intros s H; simpl; [reflexivity |].
  rewrite H. simpl. now apply IH.
Qed.

Lemma col_grads_short : forall (E : Autograd) (hl : list (node E))
    (pl : list player) (k : nat),
  autograd_lawful E ->
  Forall (fun col : player => col <> []) pl ->
  (k <= length hl < k + length pl)%nat ->
  mapM (fun jcol : nat * player =>
          loss <- py_index hl (fst jcol) ;;
          flatten_filter_none (node_zero E) (node_neg E)
            (grad_graph E loss (snd jcol)) (snd jcol) false false)
       (combine (seq k (length pl)) pl)
  = Err IndexError.
Proof.
  intros E hl pl k Hlaw Hne. revert k.
  induction Hne as [| col pl Hcol Hne IH]; intros k Hk; simpl in *; [lia |].
  unfold py_index at 1.
  destruct (nth_error hl k) as [loss |] eqn:Hloss.
  - assert (k < length hl)%nat by (apply nth_error_Some; congruence).
    cbn [bind].
    destruct (@flatten_ok _ (node E) (node_zero E) (node_neg E)
                (grad_graph E loss col) col false false
                (grad_graph_ok Hlaw loss col) Hcol) as (flat & Hflat & _).
    rewrite Hflat. cbn [bind]. rewrite IH by lia. reflexivity.
  - reflexivity.
Qed.

(** X13. [atvp] takes the gradient of every player's objective before its
    loops, so with fewer objectives than players it raises [IndexError]
    whatever the vectors are, even where [avp(.., transpose=True)] returns
    because its loops never reach the missing objective. *)
Theorem atvp_missing_objective_raises : forall (E : Autograd)
    (hessian_loss_list : list (node E)) (player_list : list player)
    (player_list_flattened v : list vec) (bregman : bregman),
  autograd_lawful E ->
  Forall (fun col : player => col <> []) player_list ->
  (length hessian_loss_list < length player_list)%nat ->
  atvp E hessian_loss_list player_list player_list_flattened v bregman
  = Err IndexError /\
  avp E hessian_loss_list player_list player_list_flattened [] bregman true
  = Ok [].
Proof.
  intros E hl pl pf v B Hlaw Hne Hshort. split.
  - unfold atvp, enumerate.
    rewrite (@col_grads_short E hl pl 0 Hlaw Hne) by lia. reflexivity.
  - unfold avp. rewrite combine_nil. simpl.
    apply foldM_skip. intros s irow. reflexivity.
Qed.

End OperatorSizes.

Section OperatorSizesRuns.

Import CmdUtils Design Games.

#[local] Existing Instance binary32.

Lemma operator_keeps_block_sizes_witness :
  Forall2 (fun b u : vec => length b = length u)
    [[f32 21]; [f32 10]] [[f32 1]; [f32 10]].
Proof.
  destruct (@operator_keeps_block_sizes binary32 duel_engine duel_losses
              duel_players duel_flattened [[f32 1]; [f32 10]]
              (squared_distance 1)) as [H _].
  apply (H false). reflexivity.
Defined.

Lemma atvp_missing_objective_raises_witness :
  atvp duel_engine [Poly.Const 0] duel_players
    duel_flattened [[f32 1]] (squared_distance 1) = Err IndexError /\
  avp duel_engine [Poly.Const 0] duel_players
    duel_flattened [] (squared_distance 1) true = Ok [].
Proof.
  apply (@atvp_missing_objective_raises binary32).
  - apply engine_lawful.
  - repeat constructor; discriminate.
  - simpl. lia.
Defined.

End OperatorSizesRuns.

(** ** The solver: shape of the result *)

Section SolverFacts.

Context {Sc : Scalar}.

Import CmdUtils Design.

Lemma solver_ok : forall (E : Autograd) (gl hl : list (node E))
    (pl : list player) (pf : list vec) (B : bregman) (tol atol : scalar)
    (x0 : option (list vec)) (n_steps : Z),
  autograd_lawful E ->
  second_pass_defined E hl pl ->
  potential_elementwise B ->
  pl <> [] ->
  (length pl <= length gl)%nat ->
  (length pl <= length hl)%nat ->
  shaped pl pf ->
  Forall (fun p : player => p <> []) pl ->
  match x0 with Some g => shaped pl g | None => True end ->
  (1 <= n_steps)%Z ->
  exists (x : list vec) (k : Z),
    metamatrix_conjugate_gradient E gl hl pl pf B tol atol x0 n_steps
    = Ok (x, k) /\
    shaped pl x /\ (0 <= k <= n_steps)%Z /\
    (k = 0%Z -> x = match x0 with
                    | Some g => g
                    | None => map zeros_like pf
                    end).
Proof.
  intros E gl hl pl pf B tol atol x0 n_steps Hlaw Hsecond Hpot Hpl Hgl Hhl
         Hflat Hparams Hx0 Hn.
  destruct (@cg_setup_ok _ E gl hl pl pf B tol Hlaw Hpot Hgl Hhl Hflat Hparams
              Hpl Hsecond x0 Hx0) as (su & Hsu & Hsx & Hsr).
  destruct (early_exit atol su) eqn:Hexit.
  - rewrite (@early_exit_returns _ E gl hl pl pf B tol atol x0 n_steps su Hsu
               Hexit).
    exists (su_x su), 0%Z. split; [reflexivity |]. split; [assumption |].
    split; [lia |]. intros _.
    apply cg_setup_inv in Hsu.
    destruct Hsu as (b & r0 & nrm & _ & _ & _ & _ & Hxr & _).
    destruct x0; tauto.
  - rewrite (@no_early_exit_runs_loop _ E gl hl pl pf B tol atol x0 n_steps su
               Hsu Hexit).
    destruct (@cg_loop_ok _ E hl pl pf B atol Hlaw Hpot Hhl Hflat Hparams
                Hpl Hsecond (su_residual_tol su) (seq 0 (Z.to_nat n_steps)) (cg_start su)
                None)
      as (st' & last' & Hloop & (Hshx & _) & Hlast).
    { unfold cg_state_shaped, cg_start. simpl. auto. }
    rewrite Hloop. simpl.
    destruct (Z.to_nat n_steps) as [| m] eqn:Hm; [lia |].
    simpl in Hlast. destruct Hlast as (i & -> & Hi).
    exists (cg_x st'), (Z.of_nat i + 1)%Z.
    split; [reflexivity |]. split; [assumption |].
    assert (Hin : In i (seq 0 (S m))) by exact Hi.
    apply in_seq in Hin. split; lia.
Qed.

(** X15. On a well-formed game with at least one player, whose second
    differentiation passes are defined, and with [n_steps >= 1], the solver
    returns, from a cold or a shaped warm start: one vector per player of
    the size of the player's parameters, and a count between [0] and
    [n_steps] that is [0] only when the starting point itself is
    returned. *)
Theorem solver_result_shaped : forall (E : Autograd) (gl hl : list (node E))
    (pl : list player) (pf : list vec) (B : bregman) (tol atol : scalar)
    (x0 : option (list vec)) (n_steps : Z),
  autograd_lawful E ->
  second_pass_defined E hl pl ->
  potential_elementwise B ->
  pl <> [] ->
  (length pl <= length gl)%nat ->
  (length pl <= length hl)%nat ->
  shaped pl pf ->
  Forall (fun p : player => p <> []) pl ->
  match x0 with Some g => shaped pl g | None => True end ->
  (1 <= n_steps)%Z ->
  exists (x : list vec) (k : Z),
    metamatrix_conjugate_gradient E gl hl pl pf B tol atol x0 n_steps
    = Ok (x, k) /\
    Forall2 (fun (u : vec) (p : player) => length u = total_numel p) x pl /\
    Forall2 (fun u xi : vec => length u = length xi) x pf /\
    (0 <= k <= n_steps)%Z /\
    (k = 0%Z -> x = match x0 with
                    | Some g => g
                    | None => map zeros_like pf
                    end).
Proof.
  intros E gl hl pl pf B tol atol x0 n_steps Hlaw Hsecond Hpot Hpl Hgl Hhl
         Hflat Hparams Hx0 Hn.
  destruct (@solver_ok E gl hl pl pf B tol atol x0 n_steps Hlaw Hsecond Hpot
              Hpl Hgl Hhl Hflat Hparams Hx0 Hn)
    as (x & k & Hrun & Hsh & Hk & Hzero).
  exists x, k. split; [assumption |]. split; [exact Hsh |].
  split; [| split; assumption].
  exact (shaped_same_lengths Hsh Hflat).
Qed.

End SolverFacts.

Section SolverFactsRuns.

Import CmdUtils Design Games.

#[local] Existing Instance binary32.

Lemma solver_result_shaped_witness :
  exists (x : list vec) (k : Z),
    metamatrix_conjugate_gradient duel_engine duel_losses
      duel_losses duel_players duel_flattened
      (squared_distance 1) default_tol default_tol None 5
    = Ok (x, k) /\
    Forall2 (fun (u : vec) (p : player) => length u = total_numel p) x
            duel_players /\
    Forall2 (fun u xi : vec => length u = length xi) x duel_flattened /\
    (0 <= k <= 5)%Z /\
    (k = 0%Z -> x = map zeros_like duel_flattened).
Proof.
  apply (@solver_result_shaped binary32 duel_engine duel_losses
           duel_losses duel_players duel_flattened
           (squared_distance 1) default_tol default_tol None 5).
  - apply engine_lawful.
  - apply duel_second_pass.
  - apply squared_distance_elementwise.
  - discriminate.
  - simpl. lia.
  - simpl. lia.
  - repeat constructor.
  - repeat constructor; discriminate.
  - exact I.
  - lia.
Defined.

End SolverFactsRuns.

(** ** The optimizer step *)

Section OptimizerStep.

Context {Sc : Scalar}.

Import CmdUtils Design.

Lemma flatten_players_ok : forall players : list player,
  Forall (fun pl : player => pl <> []) players ->
  Forall (Forall param_wf) players ->
  mapM flatten_player players
  = Ok (map (fun pl : player => concat (map pdata pl)) players) /\
  shaped players (map (fun pl : player => concat (map pdata pl)) players).
Proof.
  intros players Hne Hwf. unfold shaped.
  induction Hne as [| pl players Hpl Hne IH]; simpl.
  - split; [reflexivity | constructor].
  - inversion Hwf as [| ? ? Hwpl Hwf']; subst.
    destruct (IH Hwf') as [Hflat Hsh].
    rewrite (flatten_player_Ok Hpl), Hflat. simpl.
    split; [reflexivity |].
    constructor; [now apply length_flat_player | assumption].
Qed.

Lemma exp_map_shaped : forall (B : bregman) (players : list player)
    (pf x : list vec) (in_place : bool),
  potential_elementwise B ->
  shaped players pf -> shaped players x ->
  exists mapped, exp_map pf x B in_place = Ok mapped /\
                 shaped players mapped.
Proof.
  intros B players pf x in_place Hpot Hpf. revert x.
  unfold shaped in *. unfold exp_map.
  induction Hpf as [| p pl pf players Hp Hpf IH]; intros x Hx;
    inversion Hx as [| d ? ds ? Hd Hds]; subst; cbn [combine mapM fst snd].
  - exists []. split; [reflexivity | constructor].
  - destruct (Dx_inv_len Hpot p) as (a & Ha & Hla).
    destruct (Dxx_vp_len Hpot p d) as (b & Hb & Hlb); [congruence |].
    destruct (broadcast2_ok add a b) as (s & Hs & Hls); [congruence |].
    destruct (Dx_len Hpot s) as (m & Hm & Hlm).
    destruct (IH ds Hds) as (ms & Hms & Hsh).
    change (broadcast2 add a b) with (vadd a b) in Hs.
    rewrite Ha. cbn [bind]. rewrite Hb. cbn [bind].
    rewrite Hs. cbn [bind]. rewrite Hm. cbn [bind].
    rewrite Hms. cbn [bind].
    exists (m :: ms). split; [reflexivity |].
    constructor; [congruence | assumption].
Qed.

Lemma total_numel_shapes : forall pl pl' : player,
  map pshape pl' = map pshape pl -> total_numel pl' = total_numel pl.
Proof.
  induction pl as [| p pl IH]; intros [| p' pl'] H; simpl in *;
    try discriminate; [reflexivity |].
  injection H as Hp H. unfold numel. rewrite Hp. f_equal. now apply IH.
Qed.

Lemma shaped_same_structure : forall (players' players : list player)
    (x : list vec),
  same_structure players' players -> shaped players x -> shaped players' x.
Proof.
  intros players' players x Hst. revert x. unfold shaped, same_structure in *.
  induction Hst as [| pl' pl players' players [_ Hshape] Hst IH];
    intros x Hx.
  - exact Hx.
  - inversion Hx as [| u ? us ? Hu Hus]; subst.
    constructor; [| now apply IH].
    now rewrite (total_numel_shapes _ _ Hshape).
Qed.

Lemma same_structure_nonempty : forall players' players : list player,
  same_structure players' players -> players <> [] -> players' <> [].
Proof.
  intros players' players H Hne. inversion H; subst; congruence.
Qed.

Lemma step_body_ok : forall (E : Autograd) (self : CMD)
    (gl hl : list (node E)),
  autograd_lawful E ->
  second_pass_defined E hl (cmd_player_list self) ->
  cmd_wf self ->
  (length (cmd_player_list self) <= length gl)%nat ->
  (length (cmd_player_list self) <= length hl)%nat ->
  exists (players' : list player) (x : list vec) (k : Z),
    step_body E self gl hl
    = Ok (mkCMD (cmd_bregman self) (cmd_step self + 1) players'
                (cmd_grads self) (cmd_tol self) (cmd_atol self)
                (Some x) k) /\
    metamatrix_conjugate_gradient E gl hl (cmd_player_list self)
      (map (fun pl : player => concat (map pdata pl)) (cmd_player_list self))
      (cmd_bregman self) (cmd_tol self) (cmd_atol self)
      (cmd_last_dual_soln self) 5 = Ok (x, k) /\
    shaped (cmd_player_list self) x /\
    (0 <= k <= 5)%Z /\
    same_structure players' (cmd_player_list self) /\
    Forall (fun pl : player => pl <> []) players' /\
    Forall (Forall param_wf) players' /\
    mapM flatten_player players'
    = exp_map (map (fun pl : player => concat (map pdata pl))
                   (cmd_player_list self))
              x (cmd_bregman self) true.
Proof.
  intros E self gl hl Hlaw Hsecond (Hpl & Hne & Hwf & Hpot & Hlast) Hgl Hhl.
  destruct (flatten_players_ok Hne Hwf) as [Hflat Hpf].
  set (pf := map (fun pl : player => concat (map pdata pl))
                 (cmd_player_list self)) in *.
  destruct (@solver_ok _ E gl hl (cmd_player_list self) pf (cmd_bregman self)
              (cmd_tol self) (cmd_atol self) (cmd_last_dual_soln self) 5
              Hlaw Hsecond Hpot Hpl Hgl Hhl Hpf Hne Hlast)
    as (x & k & Hrun & Hx & Hk & _); [lia |].
  destruct (@exp_map_shaped (cmd_bregman self) (cmd_player_list self) pf x
              true Hpot Hpf Hx) as (mapped & Hmap & Hmsh).
  destruct (write_back_all_fits Hne Hmsh)
    as (players' & Hwb & Hwf' & Hne' & Hst & Hflat').
  exists players', x, k.
  split.
  { unfold step_body. rewrite Hflat. cbn [bind].
    rewrite Hrun. cbn [bind fst snd]. rewrite Hmap. cbn [bind].
    rewrite Hwb. reflexivity. }
  repeat split; try assumption; try lia.
  now rewrite Hmap.
Qed.

(** X19. On a well-formed optimizer (at least one player, every player
    with a tensor) with a lawful engine, second differentiation passes that
    are defined and at least one objective per player, [CMD_RL.step] (and
    [CMD.step], which is the same body with one list in both roles) returns
    without an exception and leaves the optimizer well formed: the step
    counter grows by one, no tensor changes identity or shape, the stored
    dual solution is the solver's result and has the game's shape, the
    iteration count is between [0] and the default [5], and nothing else in
    the state changes. *)
Theorem step_keeps_optimizer_well_formed : forall (E : Autograd) (self : CMD)
    (gl hl : list (node E)),
  autograd_lawful E ->
  second_pass_defined E hl (cmd_player_list self) ->
  cmd_wf self ->
  (length (cmd_player_list self) <= length gl)%nat ->
  (length (cmd_player_list self) <= length hl)%nat ->
  CMD_step E self hl = CMD_RL_step E self hl hl /\
  exists self' : CMD,
    CMD_RL_step E self gl hl = Ok self' /\
    cmd_wf self' /\
    cmd_step self' = (cmd_step self + 1)%Z /\
    same_structure (cmd_player_list self') (cmd_player_list self) /\
    (0 <= cmd_last_dual_soln_n_iter self' <= 5)%Z /\
    (exists x, cmd_last_dual_soln self' = Some x /\
               shaped (cmd_player_list self) x) /\
    cmd_grads self' = cmd_grads self /\
    cmd_tol self' = cmd_tol self /\
    cmd_atol self' = cmd_atol self.
Proof.
  intros E self gl hl Hlaw Hsecond Hself Hgl Hhl.
  split; [reflexivity |].
  destruct (@step_body_ok E self gl hl Hlaw Hsecond Hself Hgl Hhl)
    as (players' & x & k & Hstep & _ & Hx & Hk & Hst & Hne' & Hwf' & _).
  destruct Hself as (Hpl & _ & _ & Hpot & _).
  eexists. split; [exact Hstep |]. simpl.
  split.
  { unfold cmd_wf. simpl.
    split; [exact (same_structure_nonempty Hst Hpl) |].
    repeat split; try assumption.
    - exact (Dx_len Hpot).
    - exact (Dx_inv_len Hpot).
    - exact (Dxx_vp_len Hpot).
    - now apply shaped_same_structure with (cmd_player_list self). }
  repeat split; try assumption; try lia.
  exists x. split; [reflexivity | assumption].
Qed.

(** X31. What a step stores and writes: on a well-formed optimizer (as in
    X19) the dual solution and the iteration count stored by
    [CMD_RL.step] are what the solver returns on the flattened players,
    warm-started from the dual solution stored before and with the default
    [n_steps = 5]; and the parameters after the step, flattened, are
    [exp_map] of the flattened parameters before the step and that dual
    solution. *)
Theorem step_stores_solution_and_writes_exp_map : forall (E : Autograd)
    (self : CMD) (gl hl : list (node E)),
  autograd_lawful E ->
  second_pass_defined E hl (cmd_player_list self) ->
  cmd_wf self ->
  (length (cmd_player_list self) <= length gl)%nat ->
  (length (cmd_player_list self) <= length hl)%nat ->
  exists (self' : CMD) (pf x : list vec),
    CMD_RL_step E self gl hl = Ok self' /\
    mapM flatten_player (cmd_player_list self) = Ok pf /\
    metamatrix_conjugate_gradient E gl hl (cmd_player_list self) pf
      (cmd_bregman self) (cmd_tol self) (cmd_atol self)
      (cmd_last_dual_soln self) 5
    = Ok (x, cmd_last_dual_soln_n_iter self') /\
    cmd_last_dual_soln self' = Some x /\
    mapM flatten_player (cmd_player_list self')
    = exp_map pf x (cmd_bregman self) true.
Proof.
  intros E self gl hl Hlaw Hsecond Hself Hgl Hhl.
  destruct (@step_body_ok E self gl hl Hlaw Hsecond Hself Hgl Hhl)
    as (players' & x & k & Hstep & Hrun & _ & _ & _ & _ & _ & Hflat').
  destruct Hself as (_ & Hne & Hwf & _ & _).
  destruct (flatten_players_ok Hne Hwf) as [Hflat _].
  eexists. exists (map (fun pl : player => concat (map pdata pl))
                       (cmd_player_list self)), x.
  split; [exact Hstep |]. split; [exact Hflat |]. cbn.
  split; [exact Hrun |]. split; [reflexivity | exact Hflat'].
Qed.

End OptimizerStep.

Section OptimizerStepRuns.

Import CmdUtils Design Games.

#[local] Existing Instance binary32.

Lemma step_keeps_optimizer_well_formed_witness :
  CMD_step duel_engine duel_optimizer duel_losses
  = CMD_RL_step duel_engine duel_optimizer duel_losses
      duel_losses /\
  exists self' : CMD,
    CMD_RL_step duel_engine duel_optimizer duel_losses
      duel_losses = Ok self' /\
    cmd_wf self' /\
    cmd_step self' = (cmd_step duel_optimizer + 1)%Z /\
    same_structure (cmd_player_list self')
      (cmd_player_list duel_optimizer) /\
    (0 <= cmd_last_dual_soln_n_iter self' <= 5)%Z /\
    (exists x, cmd_last_dual_soln self' = Some x /\
               shaped (cmd_player_list duel_optimizer) x) /\
    cmd_grads self' = cmd_grads duel_optimizer /\
    cmd_tol self' = cmd_tol duel_optimizer /\
    cmd_atol self' = cmd_atol duel_optimizer.
Proof.
  apply (@step_keeps_optimizer_well_formed binary32).
  - apply engine_lawful.
  - apply duel_second_pass.
  - unfold cmd_wf. simpl. split; [discriminate |]. repeat split.
    + repeat constructor; discriminate.
    + repeat constructor.
    + apply (Dx_len (squared_distance_elementwise _)).
    + apply (Dx_inv_len (squared_distance_elementwise _)).
    + apply (Dxx_vp_len (squared_distance_elementwise _)).
  - simpl. lia.
  - simpl. lia.
Defined.

Lemma step_stores_solution_and_writes_exp_map_witness :
  exists (self' : CMD) (pf x : list vec),
    CMD_RL_step duel_engine duel_optimizer duel_losses duel_losses
    = Ok self' /\
    mapM flatten_player (cmd_player_list duel_optimizer) = Ok pf /\
    metamatrix_conjugate_gradient duel_engine duel_losses duel_losses
      (cmd_player_list duel_optimizer) pf (cmd_bregman duel_optimizer)
      (cmd_tol duel_optimizer) (cmd_atol duel_optimizer)
      (cmd_last_dual_soln duel_optimizer) 5
    = Ok (x, cmd_last_dual_soln_n_iter self') /\
    cmd_last_dual_soln self' = Some x /\
    mapM flatten_player (cmd_player_list self')
    = exp_map pf x (cmd_bregman duel_optimizer) true.
Proof.
  apply (@step_stores_solution_and_writes_exp_map binary32).
  - apply engine_lawful.
  - apply duel_second_pass.
  - unfold cmd_wf. simpl. split; [discriminate |]. repeat split.
    + repeat constructor; discriminate.
    + repeat constructor.
    + apply (Dx_len (squared_distance_elementwise _)).
    + apply (Dx_inv_len (squared_distance_elementwise _)).
    + apply (Dxx_vp_len (squared_distance_elementwise _)).
  - simpl. lia.
  - simpl. lia.
Defined.

End OptimizerStepRuns.

Section OptimizerEdges.

Context {Sc : Scalar}.

Import CmdUtils Design.

Lemma flatten_players_empty : forall players : list player,
  In [] players ->
  mapM flatten_player players = Err (RuntimeError EmptyCat).
Proof.
  induction players as [| pl players IH]; intros Hin; [destruct Hin |].
  simpl. destruct pl as [| p pl].
  - reflexivity.
  - destruct Hin as [Hin | Hin]; [discriminate |].
    rewrite (@flatten_player_Ok _ (p :: pl)) by discriminate.
    cbn [bind]. now rewrite IH.
Qed.

(** X20. A player without any parameter tensor makes both [step] methods
    raise the exception [torch.cat] raises on an empty list, before any
    gradient is taken and whatever the objectives are. *)
Theorem step_empty_player_raises : forall (E : Autograd) (self : CMD)
    (gl hl : list (node E)),
  In [] (cmd_player_list self) ->
  exists e : py_error,
    @torch_cat scalar [] = Err e /\
    CMD_step E self hl = Err e /\
    CMD_RL_step E self gl hl = Err e.
Proof.
  intros E self gl hl Hin. eexists. split; [reflexivity |].
  unfold CMD_step, CMD_RL_step, step_body.
  rewrite (flatten_players_empty _ Hin). split; reflexivity.
Qed.

End OptimizerEdges.

Section OptimizerEdgesRuns.

Import CmdUtils Design Games.

#[local] Existing Instance binary32.

Lemma step_empty_player_raises_witness :
  exists e : py_error,
    @torch_cat scalar [] = Err e /\
    CMD_step duel_engine
      (CMD_init [[x_param]; []] [[None]; []] (squared_distance 1)
         default_tol default_tol)
      duel_losses = Err e /\
    CMD_RL_step duel_engine
      (CMD_init [[x_param]; []] [[None]; []] (squared_distance 1)
         default_tol default_tol)
      duel_losses duel_losses = Err e.
Proof.
  apply (@step_empty_player_raises binary32). simpl. auto.
Defined.

End OptimizerEdgesRuns.

(** ** Objectives beyond the number of players *)

Section SurplusObjectives.

Context {Sc : Scalar}.

Import CmdUtils Design.

Variable E : Autograd.
Variable player_list : list player.
Variable player_list_flattened : list vec.
Variable bregman : bregman.
Variables grad_loss_list more_grad_losses : list (node E).
Variables hessian_loss_list more_hessian_losses : list (node E).

Hypothesis Hgrads : (length player_list <= length grad_loss_list)%nat.
Hypothesis Hlosses : (length player_list <= length hessian_loss_list)%nat.

Lemma py_index_app : forall (A : Type) (xs ys : list A) (i : nat),
  (i < length xs)%nat -> py_index (xs ++ ys) i = py_index xs i.
Proof.
  intros A xs ys i Hi. unfold py_index. now rewrite nth_error_app1.
Qed.

Lemma enumerate_bound : forall (A : Type) (xs : list A) (i : nat) (x : A),
  In (i, x) (enumerate xs) -> (i < length xs)%nat.
Proof.
  intros A xs i x Hin. apply nth_error_enumerate in Hin.
  apply nth_error_Some. congruence.
Qed.

Lemma avp_surplus : forall (v : list vec) (transpose : bool),
  avp E (hessian_loss_list ++ more_hessian_losses) player_list
    player_list_flattened v bregman transpose
  = avp E hessian_loss_list player_list player_list_flattened v bregman
      transpose.
Proof.
  intros v transpose. unfold avp.
  apply foldM_ext. intros s [i row] Hrow. cbn [fst snd].
  apply enumerate_bound in Hrow.
  apply foldM_ext. intros s' [j [col v_j]] Hcell.
  apply enumerate_bound in Hcell. rewrite length_combine in Hcell.
  unfold avp_cell. cbn [fst snd].
  destruct (i =? j); [reflexivity |].
  rewrite py_index_app; [reflexivity |].
  destruct transpose; lia.
Qed.

Lemma At_A_surplus : forall v : list vec,
  At_A E (hessian_loss_list ++ more_hessian_losses) player_list
    player_list_flattened bregman v
  = At_A E hessian_loss_list player_list player_list_flattened bregman v.
Proof.
  intros v. unfold At_A. rewrite avp_surplus.
  destruct (avp E hessian_loss_list player_list player_list_flattened v
              bregman false) as [A_v | e]; cbn [bind]; [| reflexivity].
  apply avp_surplus.
Qed.

Lemma neg_gradients_surplus :
  neg_gradients E (grad_loss_list ++ more_grad_losses) player_list
  = neg_gradients E grad_loss_list player_list.
Proof.
  unfold neg_gradients. now rewrite combine_surplus_l.
Qed.

Lemma cg_setup_surplus : forall (tol : scalar) (x0 : option (list vec)),
  cg_setup E (grad_loss_list ++ more_grad_losses)
    (hessian_loss_list ++ more_hessian_losses) player_list
    player_list_flattened bregman tol x0
  = cg_setup E grad_loss_list hessian_loss_list player_list
      player_list_flattened bregman tol x0.
Proof.
  intros tol x0. unfold cg_setup. rewrite neg_gradients_surplus.
  destruct (neg_gradients E grad_loss_list player_list) as [b | e];
    cbn [bind]; [| reflexivity].
  rewrite avp_surplus.
  destruct (avp E hessian_loss_list player_list player_list_flattened b
              bregman true) as [r | e]; cbn [bind]; [| reflexivity].
  destruct (sum_dots r r) as [nrm | e]; cbn [bind]; [| reflexivity].
  destruct x0 as [g |]; [| reflexivity].
  now rewrite At_A_surplus.
Qed.

Lemma cg_loop_surplus : forall (atol residual_tol : scalar) (steps : list nat)
    (st : cg_state) (last : option nat),
  cg_loop E (hessian_loss_list ++ more_hessian_losses) player_list
    player_list_flattened bregman atol residual_tol steps st last
  = cg_loop E hessian_loss_list player_list player_list_flattened bregman
      atol residual_tol steps st last.
Proof.
  intros atol residual_tol steps.
  induction steps as [| i steps IH]; intros st last; simpl; [reflexivity |].
  unfold cg_iteration. rewrite At_A_surplus.
  match goal with
  | |- bind ?c _ = _ => destruct c as [[st1 brk] | e]
  end; cbn [bind fst snd]; [| reflexivity].
  destruct brk; [reflexivity | apply IH].
Qed.

Lemma solver_surplus : forall (tol atol : scalar) (x0 : option (list vec))
    (n_steps : Z),
  metamatrix_conjugate_gradient E (grad_loss_list ++ more_grad_losses)
    (hessian_loss_list ++ more_hessian_losses) player_list
    player_list_flattened bregman tol atol x0 n_steps
  = metamatrix_conjugate_gradient E grad_loss_list hessian_loss_list
      player_list player_list_flattened bregman tol atol x0 n_steps.
Proof.
  intros tol atol x0 n_steps. unfold metamatrix_conjugate_gradient.
  rewrite cg_setup_surplus.
  destruct (cg_setup E grad_loss_list hessian_loss_list player_list
              player_list_flattened bregman tol x0) as [su | e];
    cbn [bind]; [| reflexivity].
  destruct (early_exit atol su); [reflexivity |].
  now rewrite cg_loop_surplus.
Qed.

End SurplusObjectives.

Section SurplusObjectivesFacts.

Context {Sc : Scalar}.

Import CmdUtils Design.

(** X30. Objectives beyond the number of players are never used: with at
    least one gradient objective and one Hessian objective per player,
    appending objectives to either list changes neither what the solver
    returns or raises nor what [CMD.step] and [CMD_RL.step] do. *)
Theorem surplus_objectives_are_ignored : forall (E : Autograd) (self : CMD)
    (gl more_gl hl more_hl : list (node E)),
  (length (cmd_player_list self) <= length gl)%nat ->
  (length (cmd_player_list self) <= length hl)%nat ->
  (forall (pf : list vec) (B : bregman) (tol atol : scalar)
          (x0 : option (list vec)) (n_steps : Z),
     metamatrix_conjugate_gradient E (gl ++ more_gl) (hl ++ more_hl)
       (cmd_player_list self) pf B tol atol x0 n_steps
     = metamatrix_conjugate_gradient E gl hl (cmd_player_list self) pf B
         tol atol x0 n_steps) /\
  CMD_RL_step E self (gl ++ more_gl) (hl ++ more_hl)
  = CMD_RL_step E self gl hl /\
  CMD_step E self (hl ++ more_hl) = CMD_step E self hl.
Proof.
  intros E self gl more_gl hl more_hl Hgl Hhl.
  split; [| split].
  - intros pf B tol atol x0 n_steps. now apply solver_surplus.
  - unfold CMD_RL_step, step_body.
    destruct (mapM flatten_player (cmd_player_list self)) as [pf | e];
      cbn [bind]; [| reflexivity].
    now rewrite solver_surplus.
  - unfold CMD_step, step_body.
    destruct (mapM flatten_player (cmd_player_list self)) as [pf | e];
      cbn [bind]; [| reflexivity].
    now rewrite solver_surplus.
Qed.

End SurplusObjectivesFacts.

Section SurplusObjectivesRuns.

Import CmdUtils Design Games.

#[local] Existing Instance binary32.

Lemma surplus_objectives_are_ignored_witness :
  (forall (pf : list vec) (B : bregman) (tol atol : scalar)
          (x0 : option (list vec)) (n_steps : Z),
     metamatrix_conjugate_gradient mono_engine
       ([mono_loss] ++ [rest_loss])
       ([mono_loss] ++ [rest_loss])
       (cmd_player_list mono_optimizer) pf B tol atol x0 n_steps
     = metamatrix_conjugate_gradient mono_engine [mono_loss]
         [mono_loss] (cmd_player_list mono_optimizer) pf B tol
         atol x0 n_steps) /\
  CMD_RL_step mono_engine mono_optimizer
    ([mono_loss] ++ [rest_loss])
    ([mono_loss] ++ [rest_loss])
  = CMD_RL_step mono_engine mono_optimizer [mono_loss]
      [mono_loss] /\
  CMD_step mono_engine mono_optimizer
    ([mono_loss] ++ [rest_loss])
  = CMD_step mono_engine mono_optimizer [mono_loss].
Proof.
  apply (@surplus_objectives_are_ignored binary32 mono_engine
           mono_optimizer [mono_loss] [rest_loss]
           [mono_loss] [rest_loss]).
  - simpl. lia.
  - simpl. lia.
Defined.

End SurplusObjectivesRuns.
